(** * pyhs: a HandlerSocket client, embedded in Rocq

    A shallow embedding of [pyhs/utils.py], [pyhs/exceptions.py] and
    [pyhs/sockets.py], with the statements the specification makes about
    them.

    Conventions of the embedding:
    - a Python [str] is a [string], a sequence of characters up to U+00FF;
      a [bytes] object is a [string] too, a sequence of bytes; [None] is the
      [None] of [option];
    - integers are [Z], time stamps are [Z] time units;
    - exceptions are values of [exn]; a computation that may raise and that
      mutates the pool is a function from the state to an outcome and the
      state reached, so what was mutated before a [raise] is kept;
    - what the operating system answers (the clock, [random.shuffle], the
      socket calls) is read from a script carried by the state, one answer
      per call, in the order of the calls. *)

From Stdlib Require Import List String Ascii ZArith NArith Lia Bool Arith.
From Stdlib Require Import DecimalString Permutation.
From Stdlib Require Decimal DecimalPos.
Import ListNotations.

Local Open Scope string_scope.

(** ** pyhs/utils.py: the wire codec *)

Module Utils.

Definition ord (c : ascii) : N := N_of_ascii c.
Definition chr (n : N) : ascii := ascii_of_N n.

(** The characters ['\x00'] and ['\x01']. *)
Definition NUL : ascii := "000"%char.
Definition SOH : ascii := "001"%char.

Definition str1 (c : ascii) : string := String c EmptyString.

(** The [for char in value] loop of [encode]; [output] is the accumulator. *)
Fixpoint encode_loop (output value : string) : string :=
  match value with
  | EmptyString => output
  | String char rest =>
      if (ord char <=? 0x0f)%N
      then encode_loop (output ++ String SOH (str1 (chr (N.lor (ord char) 0x40)))) rest
      else encode_loop (output ++ str1 char) rest
  end.

Definition encode (value : option string) : string :=
  match value with
  | None => str1 NUL
  | Some value => encode_loop "" value
  end.

(** The [for char in it] loop of [decode]: [it] is what the iterator still
    holds, [next(it)] takes its head, [StopIteration] is the empty case. *)
Fixpoint decode_loop (decoded it : string) : string :=
  match it with
  | EmptyString => decoded
  | String char it =>
      if Ascii.eqb char SOH then
        match it with
        | EmptyString => decoded ++ str1 char
        | String next_char it =>
            let ordinal := ord next_char in
            if ((0x40 <=? ordinal) && (ordinal <=? 0x4f))%N
            then decode_loop (decoded ++ str1 (chr (N.lxor ordinal 0x40))) it
            else decode_loop (decoded ++ String char (str1 next_char)) it
        end
      else decode_loop (decoded ++ str1 char) it
  end.

Definition decode (value : string) : option string :=
  if String.eqb value (str1 NUL) then None else Some (decode_loop "" value).

(** [check_columns]: the columns are a list here, so [hasattr(columns,
    '__iter__')] holds and only the length is tested. *)
Definition check_columns {A : Type} (columns : list A) : bool :=
  negb (Nat.eqb (List.length columns) 0).

(** What one pass of the loop of [encode] appends for [c]. *)
Definition escape (c : ascii) : string :=
  if (ord c <=? 0x0f)%N then String SOH (str1 (chr (N.lor (ord c) 0x40))) else str1 c.

End Utils.

(** ** pyhs/exceptions.py, and the built-in exceptions the code can raise *)

Module Exceptions.

Inductive exn : Type :=
| ConnectionError (msg : string)
| OperationalError (msg : string)
| RecoverableConnectionError (msg : string)
| ValueError (msg : string)
| AttributeError (msg : string)
| IndexError (msg : string)
| KeyError (msg : string)
| TypeError (msg : string)
| RuntimeError (msg : string)
| OverflowError (msg : string)
| UnicodeDecodeError (encoding : string)
| MemoryError.

(** [isinstance(e, ConnectionError)]: [RecoverableConnectionError] is the
    only subclass. *)
Definition is_ConnectionError (e : exn) : bool :=
  match e with
  | ConnectionError _ | RecoverableConnectionError _ => true
  | _ => false
  end.

Definition is_RecoverableConnectionError (e : exn) : bool :=
  match e with
  | RecoverableConnectionError _ => true
  | _ => false
  end.

(** [e.args[0]] of an exception built from one message; the first argument
    of a [UnicodeDecodeError] is the name of the codec. A [MemoryError] has
    no argument: the code reads [args[0]] only of the [ConnectionError] it
    has kept in [last_connection_exception]. *)
Definition args0 (e : exn) : string :=
  match e with
  | ConnectionError m | OperationalError m | RecoverableConnectionError m
  | ValueError m | AttributeError m | IndexError m | KeyError m
  | TypeError m | RuntimeError m | OverflowError m => m
  | UnicodeDecodeError encoding => encoding
  | MemoryError => ""
  end.

End Exceptions.
Export Exceptions.

(** ** Computations that mutate a state and may raise *)

Module Run.

(** [Stuck]: the script of the environment does not describe this run (it
    ran out, or its next answer is not for the call being made), or the run
    leaves what the embedding represents (a text received that holds a
    character above U+00FF). *)
Inductive outcome (A : Type) : Type :=
| Ret (a : A)
| Raise (e : exn)
| Stuck.
Arguments Ret {A} a.
Arguments Raise {A} e.
Arguments Stuck {A}.

Definition M (S A : Type) : Type := S -> outcome A * S.

Definition ret {S A} (a : A) : M S A := fun s => (Ret a, s).
Definition raise {S A} (e : exn) : M S A := fun s => (Raise e, s).
Definition stuck {S A} : M S A := fun s => (Stuck, s).

Definition bind {S A B} (c : M S A) (k : A -> M S B) : M S B :=
  fun s =>
    match c s with
    | (Ret a, s') => k a s'
    | (Raise e, s') => (Raise e, s')
    | (Stuck, s') => (Stuck, s')
    end.

Definition get {S} : M S S := fun s => (Ret s, s).
Definition modify {S} (f : S -> S) : M S unit := fun s => (Ret tt, f s).

(** [try: body / except <class> as e: handler e]; [catches] is the
    [isinstance] test of the clause. *)
Definition try_except {S A} (body : M S A) (catches : exn -> bool)
    (handler : exn -> M S A) : M S A :=
  fun s =>
    match body s with
    | (Raise e, s') => if catches e then handler e s' else (Raise e, s')
    | r => r
    end.

End Run.
Export Run.

Notation "x <- c ;; k" := (bind c (fun x => k))
  (at level 61, c at next level, right associativity).
Notation "c ;;; k" := (bind c (fun _ => k))
  (at level 61, right associativity).

(** ** pyhs/utils.py: the retry decorator *)

(** [wrapper] of [retry_on_failure(func)]; the arguments of the call are
    part of [func]. *)
Definition retry_on_failure {S A} (func : M S A) : M S A :=
  result <- try_except func is_RecoverableConnectionError (fun _ => func) ;;
  ret result.

(** [func] made to count its invocations in a counter kept beside the state. *)
Definition counted {S A} (func : M S A) : M (nat * S) A :=
  fun ns => let (r, s') := func (snd ns) in (r, (Datatypes.S (fst ns), s')).

(** ** Python dictionaries, in insertion order *)

Module Dict.
Section Dict.
Context {K V : Type} (eqb : K -> K -> bool).

Definition dict : Type := list (K * V).

(** [d.get(k)]. *)
Fixpoint lookup (d : dict) (k : K) : option V :=
  match d with
  | [] => None
  | (k', v) :: d => if eqb k' k then Some v else lookup d k
  end.

(** [d[k] = v]: a present key keeps its place, a new one goes last. *)
Fixpoint store (d : dict) (k : K) (v : V) : dict :=
  match d with
  | [] => [(k, v)]
  | (k', v') :: d => if eqb k' k then (k', v) :: d else (k', v') :: store d k v
  end.

(** [del d[k]]; [None] stands for [KeyError]. *)
Fixpoint delete (d : dict) (k : K) : option dict :=
  match d with
  | [] => None
  | (k', v) :: d =>
      if eqb k' k then Some d
      else match delete d k with
           | Some d' => Some ((k', v) :: d')
           | None => None
           end
  end.

End Dict.
End Dict.

Arguments Dict.dict : clear implicits.

(** ** Built-ins of Python the code calls *)

Module Py.
Import Utils.

Definition TAB : ascii := "009"%char.
Definition LF : ascii := "010"%char.

(** [str(n)] and ['%d' % n] of an integer. The integers the client prints
    are index ids, lengths, limits, offsets and error numbers; they are
    taken to be within the 4300 digits that CPython converts. *)
Definition str_of_int (n : Z) : string := NilZero.string_of_int (Z.to_int n).

(** [s.split(sep)] for a one-character separator; [cur] is the token being
    read. The result is never empty. *)
Fixpoint split_loop (sep : ascii) (cur s : string) : list string :=
  match s with
  | EmptyString => [cur]
  | String c s =>
      if Ascii.eqb c sep then cur :: split_loop sep "" s
      else split_loop sep (cur ++ str1 c) s
  end.
Definition split (sep : ascii) (s : string) : list string := split_loop sep "" s.

(** [sep.join(l)]. *)
Definition join (sep : string) (l : list string) : string := String.concat sep l.

(** [s.find('\n')]. *)
Definition find_LF (s : string) : option nat := String.index 0 (str1 LF) s.

(** [bytes.decode(data)]: strict UTF-8. A byte below 0x80 is its
    character; a lead byte 0xC2 to 0xDF with one continuation byte, 0xE0 to
    0xEF with two, 0xF0 to 0xF4 with three give one character, where the
    first continuation byte is further restricted after 0xE0 (no overlong
    form), 0xED (no surrogate), 0xF0 (no overlong form) and 0xF4 (nothing
    above U+10FFFF). Anything else, a sequence cut short by the end of the
    data included, is a [UnicodeDecodeError]. [wide] records that a
    character above U+00FF was decoded: the text is then outside the
    embedding, unless a later byte makes the whole call fail. *)
Definition between (lo hi : N) (c : ascii) : bool :=
  ((lo <=? ord c) && (ord c <=? hi))%N.

Definition continuation (c : ascii) : bool := between 0x80 0xBF c.

(** The first continuation byte allowed after the lead byte [b0] of a
    sequence of three or four bytes. *)
Definition second_byte (b0 b1 : ascii) : bool :=
  let n := ord b0 in
  if (n =? 0xE0)%N then between 0xA0 0xBF b1
  else if (n =? 0xED)%N then between 0x80 0x9F b1
  else if (n =? 0xF0)%N then between 0x90 0xBF b1
  else if (n =? 0xF4)%N then between 0x80 0x8F b1
  else continuation b1.

Definition undecodable : outcome string := Raise (UnicodeDecodeError "utf-8").

Fixpoint utf8_loop (wide : bool) (text data : string) : outcome string :=
  match data with
  | EmptyString => if wide then Stuck else Ret text
  | String b0 rest =>
      if (ord b0 <? 0x80)%N then utf8_loop wide (text ++ str1 b0) rest
      else if between 0xC2 0xDF b0 then
        match rest with
        | String b1 rest =>
            if continuation b1 then
              let point := ((ord b0 - 0xC0) * 64 + (ord b1 - 0x80))%N in
              if (point <=? 0xFF)%N
              then utf8_loop wide (text ++ str1 (chr point)) rest
              else utf8_loop true text rest
            else undecodable
        | EmptyString => undecodable
        end
      else if between 0xE0 0xEF b0 then
        match rest with
        | String b1 (String b2 rest) =>
            if second_byte b0 b1 && continuation b2
            then utf8_loop true text rest
            else undecodable
        | _ => undecodable
        end
      else if between 0xF0 0xF4 b0 then
        match rest with
        | String b1 (String b2 (String b3 rest)) =>
            if second_byte b0 b1 && continuation b2 && continuation b3
            then utf8_loop true text rest
            else undecodable
        | _ => undecodable
        end
      else undecodable
  end.

Definition bytes_decode (data : string) : outcome string :=
  utf8_loop false "" data.

(** [int(s)] in base ten: blanks around, one sign, digits that single
    underscores may separate, and no more digits than the limit of the
    interpreter allows. [None] stands for [ValueError]. The blanks of [int]
    are the tab, the line feed, the vertical tab, the form feed, the
    carriage return and the space, and above the ASCII range the next line
    U+0085 and the no-break space U+00A0; the separators U+001C to U+001F
    are no blanks for it. *)
Definition is_space (c : ascii) : bool :=
  let n := ord c in
  (((9 <=? n) && (n <=? 13)) || (n =? 32) || (n =? 133) || (n =? 160))%N.

Definition digit_of (c : ascii) : option Z :=
  let n := ord c in
  if ((48 <=? n) && (n <=? 57))%N then Some (Z.of_N n - 48)%Z else None.

Fixpoint lstrip (s : string) : string :=
  match s with
  | String c r => if is_space c then lstrip r else s
  | EmptyString => s
  end.

Fixpoint rev_string (acc s : string) : string :=
  match s with
  | EmptyString => acc
  | String c r => rev_string (String c acc) r
  end.

Definition strip (s : string) : string :=
  rev_string "" (lstrip (rev_string "" (lstrip s))).

Fixpoint digits (acc : Z) (after_digit : bool) (s : string) : option Z :=
  match s with
  | EmptyString => if after_digit then Some acc else None
  | String c r =>
      match digit_of c with
      | Some d => digits (10 * acc + d)%Z true r
      | None =>
          if Ascii.eqb c "_"%char && after_digit then digits acc false r
          else None
      end
  end.

(** The default of [sys.get_int_max_str_digits()]. *)
Definition INT_MAX_STR_DIGITS : nat := 4300.

(** The digits of a literal as the limit counts them: leading zeros are
    counted, underscores are not. *)
Fixpoint count_digits (s : string) : nat :=
  match s with
  | EmptyString => 0
  | String c r =>
      match digit_of c with
      | Some _ => S (count_digits r)
      | None => count_digits r
      end
  end.

(** The literal after the sign. *)
Definition literal (r : string) : option Z :=
  if (INT_MAX_STR_DIGITS <? count_digits r)%nat then None else digits 0 false r.

Definition int (s : string) : option Z :=
  match strip s with
  | String "-"%char r => option_map Z.opp (literal r)
  | String "+"%char r => literal r
  | r => literal r
  end.

(** [l.pop()]: the last element and the list without it; [None] stands for
    [IndexError]. *)
Definition pop {A} (l : list A) : option (A * list A) :=
  match rev l with
  | [] => None
  | x :: r => Some (x, rev r)
  end.

(** [next] called [n] times on one iterator; [None] when it is exhausted on
    the way, which ends [zip] and loses what was taken. *)
Fixpoint next_n {A} (n : nat) (it : list A) : option (list A * list A) :=
  match n with
  | O => Some ([], it)
  | S n =>
      match it with
      | [] => None
      | x :: it =>
          match next_n n it with
          | Some (row, it) => Some (x :: row, it)
          | None => None
          end
      end
  end.

Fixpoint zip_loop {A} (fuel n : nat) (it : list A) : list (list A) :=
  match fuel with
  | O => []
  | S fuel =>
      match next_n n it with
      | Some (row, it) => row :: zip_loop fuel n it
      | None => []
      end
  end.

(** [[it]*columns], the list of the arguments of [zip]: a count that does
    not fit the index type, a signed word of 64 bits, is an [OverflowError];
    a list of more than [PY_SSIZE_T_MAX / 8] references is refused with a
    [MemoryError]; a smaller list is taken to fit in memory. [None]: the
    list is built, empty when [columns <= 0]. *)
Definition PY_SSIZE_T_MAX : Z := 9223372036854775807.

Definition repeat_error (columns : Z) : option exn :=
  if ((columns <? - PY_SSIZE_T_MAX - 1) || (PY_SSIZE_T_MAX <? columns))%Z
  then Some (OverflowError "cannot fit 'int' into an index-sized integer")
  else if (PY_SSIZE_T_MAX / 8 <? columns)%Z then Some MemoryError
  else None.

(** The [zip] of [_parse_response], applied to [columns] references to the
    one iterator [it]; no argument at all when [columns <= 0], and [zip()] is empty. Each
    row takes at least one element, so the length of [it] bounds the rows. *)
Definition zip_star {A} (it : list A) (columns : Z) : list (list A) :=
  if (columns <=? 0)%Z then []
  else zip_loop (List.length it) (Z.to_nat columns) it.

(** Arguments of an [OSError]: integers ([errno]) and strings. *)
Inductive arg : Type :=
| AInt (n : Z)
| AStr (s : string).

Definition truthy (a : arg) : bool :=
  match a with
  | AInt n => negb (n =? 0)%Z
  | AStr s => negb (String.eqb s "")
  end.

(** ['%s' % a]. *)
Definition str_of_arg (a : arg) : string :=
  match a with
  | AInt n => str_of_int n
  | AStr s => s
  end.

End Py.

(** ** pyhs/sockets.py: the state *)

Module Sockets.
Import Utils Py.

(** A connection of the pool is named by its place in [self.connections];
    the index map holds such places, so that the connection an index is
    bound to is the very object of the pool. *)
Definition ref : Type := nat.

(** [socket.error] with its [args]. *)
Record socket_error : Type := SocketError { args : list arg }.

(** The fields of [Connection] that change; [socket] holds the descriptor of
    the socket object, [None] when there is none. *)
Record Connection : Type := mkConnection {
  socket : option nat;
  retry_time : Z
}.

Definition RETRY_INTERVAL : Z := 30.

(** Answers of the environment, one per call. *)
Inductive answer : Type :=
| Clock (t : Z)                          (* time.time() *)
| Shuffled (order : list ref)            (* random.shuffle(connections) *)
| Connected (r : socket_error + nat)     (* socket(), setsockopt, settimeout, connect *)
| Sent (r : option socket_error)         (* sendall *)
| Received (r : socket_error + string).  (* recv(4096): an error, or bytes *)

(** Socket calls made, latest first; [sendall] is recorded with the text
    that [str.encode] is given. *)
Inductive event : Type :=
| EvConnect (c : ref)
| EvSendall (c : ref) (data : string)
| EvRecv (c : ref)
| EvClose (c : ref).

(** The attributes of [HandlerSocket]. *)
Record HandlerSocket : Type := mkHandlerSocket {
  connections : list Connection;
  index_map : Dict.dict Z ref;
  current_index_id : Z;
  index_cache : Dict.dict string Z;
  last_connection_exception : option exn
}.

Record State : Type := mkState {
  self : HandlerSocket;
  script : list answer;
  wire : list event
}.

Definition RETRY_LIMIT : nat := 5.
Definition FIND_OPERATIONS : list string := ["="; ">"; ">="; "<"; "<="].
Definition MODIFY_OPERATIONS : list string :=
  ["U"; "D"; "+"; "-"; "U?"; "D?"; "+?"; "-?"].

(** [x in l] for strings. *)
Definition mem (x : string) (l : list string) : bool := existsb (String.eqb x) l.

(** *** Reading and writing the state *)

Definition with_self (f : HandlerSocket -> HandlerSocket) : M State unit :=
  modify (fun st => mkState (f (self st)) (script st) (wire st)).

Definition set_index_map (m : Dict.dict Z ref) : M State unit :=
  with_self (fun hs => mkHandlerSocket (connections hs) m (current_index_id hs)
                         (index_cache hs) (last_connection_exception hs)).

Definition set_index_cache (m : Dict.dict string Z) : M State unit :=
  with_self (fun hs => mkHandlerSocket (connections hs) (index_map hs)
                         (current_index_id hs) m (last_connection_exception hs)).

Definition set_current_index_id (n : Z) : M State unit :=
  with_self (fun hs => mkHandlerSocket (connections hs) (index_map hs) n
                         (index_cache hs) (last_connection_exception hs)).

Definition set_last_connection_exception (e : option exn) : M State unit :=
  with_self (fun hs => mkHandlerSocket (connections hs) (index_map hs)
                         (current_index_id hs) (index_cache hs) e).

Fixpoint update_nth {A} (n : nat) (f : A -> A) (l : list A) : list A :=
  match l, n with
  | [], _ => []
  | x :: l, O => f x :: l
  | x :: l, S n => x :: update_nth n f l
  end.

(** The connection object a reference names; none only for a reference the
    pool never gave out. *)
Definition get_conn (c : ref) : M State Connection :=
  fun st =>
    match nth_error (connections (self st)) c with
    | Some conn => (Ret conn, st)
    | None => (Stuck, st)
    end.

Definition set_conn (c : ref) (f : Connection -> Connection) : M State unit :=
  with_self (fun hs => mkHandlerSocket (update_nth c f (connections hs))
                         (index_map hs) (current_index_id hs) (index_cache hs)
                         (last_connection_exception hs)).

Definition log (e : event) : M State unit :=
  modify (fun st => mkState (self st) (script st) (e :: wire st)).

Definition next_answer : M State answer :=
  fun st =>
    match script st with
    | [] => (Stuck, st)
    | a :: rest => (Ret a, mkState (self st) rest (wire st))
    end.

(** *** The environment *)

Definition time_time : M State Z :=
  a <- next_answer ;;
  match a with Clock t => ret t | _ => stuck end.

(** A shuffle answers with a rearrangement of the list: same elements, as
    many times each. *)
Definition same_elements (l l' : list ref) : bool :=
  Nat.eqb (List.length l) (List.length l')
  && forallb (fun x => Nat.eqb (count_occ Nat.eq_dec l x) (count_occ Nat.eq_dec l' x)) l.

Definition random_shuffle (l : list ref) : M State (list ref) :=
  a <- next_answer ;;
  match a with
  | Shuffled order => if same_elements l order then ret order else stuck
  | _ => stuck
  end.

Definition sock_connect (c : ref) : M State (socket_error + nat) :=
  log (EvConnect c) ;;;
  a <- next_answer ;;
  match a with Connected r => ret r | _ => stuck end.

Definition sock_sendall (c : ref) (data : string) : M State (option socket_error) :=
  log (EvSendall c data) ;;;
  a <- next_answer ;;
  match a with Sent r => ret r | _ => stuck end.

Definition sock_recv (c : ref) : M State (socket_error + string) :=
  log (EvRecv c) ;;;
  a <- next_answer ;;
  match a with Received r => ret r | _ => stuck end.

(** *** class Connection *)

Definition set_socket (c : ref) (sock : option nat) : M State unit :=
  set_conn c (fun conn => mkConnection sock (retry_time conn)).

Definition set_retry_time (c : ref) (t : Z) : M State unit :=
  set_conn c (fun conn => mkConnection (socket conn) t).

(** [Connection.disconnect]; an error of [close] is ignored, so no answer is
    read for it. *)
Definition disconnect (c : ref) : M State unit :=
  conn <- get_conn c ;;
  match socket conn with
  | Some _ => log (EvClose c) ;;; set_socket c None
  | None => ret tt
  end.

(** [len(e.args) == 1 and e.args[0] or e.args[1]]. *)
Definition exmsg_of (e : socket_error) : outcome arg :=
  let second :=
    match nth_error (args e) 1 with
    | Some a => Ret a
    | None => Raise (IndexError "tuple index out of range")
    end in
  match args e with
  | [a] => if truthy a then Ret a else second
  | _ => second
  end.

(** [Connection._die]: it always raises, so it fits any result type. *)
Definition _die {A} (c : ref) (e : socket_error) (msg : string) : M State A :=
  now <- time_time ;;
  set_retry_time c (now + RETRY_INTERVAL)%Z ;;;
  disconnect c ;;;
  match exmsg_of e with
  | Ret exmsg => raise (ConnectionError (msg ++ ": " ++ str_of_arg exmsg))
  | Raise x => raise x
  | Stuck => stuck
  end.

(** [Connection.connect]. *)
Definition connect (c : ref) : M State unit :=
  conn <- get_conn c ;;
  match socket conn with
  | Some _ => ret tt
  | None =>
      r <- sock_connect c ;;
      match r with
      | inl e => _die c e "Connection error"
      | inr sock => set_socket c (Some sock)
      end
  end.

(** [Connection.is_ready]; the clock is read only when [retry_time] is set. *)
Definition is_ready (c : ref) : M State bool :=
  conn <- get_conn c ;;
  blocked <-
    (if (retry_time conn =? 0)%Z then ret false
     else now <- time_time ;; ret (retry_time conn >? now)%Z) ;;
  if blocked then ret false
  else set_retry_time c 0 ;;; ret true.

(** The [while True] loop of [Connection.readline]. Each pass that does not
    leave reads one answer of the script, so [fuel] above the length of the
    script is never used up. [self.socket.recv] on no socket is an
    [AttributeError]; the bytes received are decoded after the [try], so a
    [UnicodeDecodeError] leaves the connection as it is. *)
Fixpoint readline_loop (fuel : nat) (c : ref) (buffer : string) : M State string :=
  match find_LF buffer with
  | Some index => ret (substring 0 index buffer)
  | None =>
      match fuel with
      | O => stuck
      | S fuel =>
          conn <- get_conn c ;;
          match socket conn with
          | None => raise (AttributeError "'NoneType' object has no attribute 'recv'")
          | Some _ =>
              r <- sock_recv c ;;
              match r with
              | inl e => _die c e "Read error"
              | inr data =>
                  if String.eqb data ""
                  then raise (RecoverableConnectionError
                                "Connection closed on the remote end.")
                  else
                    match bytes_decode data with
                    | Ret text => readline_loop fuel c (buffer ++ text)
                    | Raise x => raise x
                    | Stuck => stuck
                    end
              end
          end
      end
  end.

Definition readline (c : ref) : M State string :=
  st <- get ;;
  readline_loop (S (List.length (script st))) c "".

(** [Connection.send]. *)
Definition send (c : ref) (data : string) : M State unit :=
  conn <- get_conn c ;;
  match socket conn with
  | None => raise (AttributeError "'NoneType' object has no attribute 'sendall'")
  | Some _ =>
      r <- sock_sendall c data ;;
      match r with
      | Some e => _die c e "Send error"
      | None => ret tt
      end
  end.

(** *** class HandlerSocket *)

Definition lift {A} (o : outcome A) : M State A := fun st => (o, st).

Definition DQUOTE : string := str1 "034"%char.

(** [text % index_id] for a [text] that ends in a quoted [%d]. *)
Definition format_id (text : string) (index_id : option Z) : outcome string :=
  match index_id with
  | Some n => Ret (text ++ DQUOTE ++ str_of_int n ++ DQUOTE)
  | None => Raise (TypeError "%d format: a real number is required, not NoneType")
  end.

Definition raise_formatted {A} (mk : string -> exn) (text : string)
    (index_id : option Z) : M State A :=
  match format_id text index_id with
  | Ret msg => raise (mk msg)
  | Raise x => raise x
  | Stuck => stuck
  end.

(** [HandlerSocket._clear_caches]. *)
Definition _clear_caches : M State unit :=
  set_index_map [] ;;;
  set_current_index_id 0 ;;;
  set_index_cache [] ;;;
  set_last_connection_exception None.

(** The pool [HandlerSocket(servers)] builds for [n] servers. *)
Definition new_pool (n : nat) : HandlerSocket :=
  mkHandlerSocket (repeat (mkConnection None 0) n) [] 0 [] None.

(** The iterator of [self.index_cache.items()] in [purge_index]: [di_used]
    is the size of the dictionary when the iterator was made, [di_pos] the
    place of the next entry. Every step first compares the size with
    [di_used] and raises when they differ, so no step follows a deletion. *)
Fixpoint purge_loop (fuel di_used di_pos : nat) (index_id : option Z) : M State unit :=
  match fuel with
  | O => stuck
  | S fuel =>
      st <- get ;;
      let d := index_cache (self st) in
      if negb (Nat.eqb (List.length d) di_used)
      then raise (RuntimeError "dictionary changed size during iteration")
      else
        match nth_error d di_pos with
        | None => ret tt
        | Some (key, value) =>
            (if match index_id with Some n => (value =? n)%Z | None => false end
             then match Dict.delete String.eqb d key with
                  | Some d' => set_index_cache d'
                  | None => raise (KeyError key)
                  end
             else ret tt) ;;;
            purge_loop fuel di_used (S di_pos) index_id
        end
  end.

(** [HandlerSocket.purge_index]. *)
Definition purge_index (index_id : option Z) : M State unit :=
  st <- get ;;
  match index_id with
  | None => raise (KeyError "None")
  | Some n =>
      match Dict.delete Z.eqb (index_map (self st)) n with
      | None => raise (KeyError (str_of_int n))
      | Some m =>
          set_index_map m ;;;
          let size := List.length (index_cache (self st)) in
          purge_loop (S size) size 0 index_id
      end
  end.

(** [exception(self.last_connection_exception)], raised. *)
Definition raise_exception {A} : M State A :=
  st <- get ;;
  match last_connection_exception (self st) with
  | Some exc =>
      raise (ConnectionError
               ("Could not connect to any of given servers: " ++ args0 exc))
  | None => raise (AttributeError "'NoneType' object has no attribute 'args'")
  end.

Inductive flow : Type := Break | Continue.

(** The [for i in range(...)] loop of [_get_connection], [n] passes left;
    its [else] clause is the case of no pass left. *)
Fixpoint retry_loop (n : nat) (index_id : option Z) (force_index : bool)
    (conn : ref) (connections : list ref) : M State ref :=
  match n with
  | O => raise_exception
  | S n =>
      fl <- try_except
              (ready <- is_ready conn ;;
               if ready then connect conn ;;; ret Break else ret Continue)
              is_ConnectionError
              (fun e =>
                 set_last_connection_exception (Some e) ;;;
                 if force_index then
                   purge_index index_id ;;;
                   match connections with
                   | _ :: _ =>
                       raise_formatted RecoverableConnectionError
                         "Could not use connection with given index id " index_id
                   | [] => raise_exception
                   end
                 else ret Continue) ;;
      match fl with
      | Break => ret conn
      | Continue =>
          match pop connections with
          | Some (conn', connections') =>
              retry_loop n index_id force_index conn' connections'
          | None => retry_loop n index_id force_index conn connections
          end
      end
  end.

(** [HandlerSocket._get_connection]. *)
Definition _get_connection (index_id : option Z) (force_index : bool) : M State ref :=
  st <- get ;;
  connections <- random_shuffle (seq 0 (List.length (connections (self st)))) ;;
  let bound :=
    match index_id with
    | Some n => Dict.lookup Z.eqb (index_map (self st)) n
    | None => None
    end in
  first <-
    match bound with
    | Some conn => ret (conn, connections)
    | None =>
        if force_index
        then raise_formatted OperationalError
               "There is no connection with given index id " index_id
        else match pop connections with
             | Some r => ret r
             | None => raise (IndexError "pop from empty list")
             end
    end ;;
  let (conn, connections) := (first : ref * list ref) in
  conn <- retry_loop (Nat.max RETRY_LIMIT (List.length connections))
            index_id force_index conn connections ;;
  match index_id with
  | Some n =>
      st <- get ;;
      set_index_map (Dict.store Z.eqb (index_map (self st)) n conn)
  | None => ret tt
  end ;;;
  ret conn.

(** A result row: the tuple of its decoded columns. *)
Definition row : Type := list (option string).

(** [HandlerSocket._parse_response]. [split] gives at least one token;
    [int] of a token that is no number is a [ValueError], [tokens[1]] of a
    lone token an [IndexError]; [map] is lazy, so that the list of
    [columns] references is what is built first. *)
Definition _parse_response (raw_data : string) : outcome (list row) :=
  let tokens := split TAB raw_data in
  let failed :=
    match tokens with
    | [] => Ret true
    | status :: _ =>
        match int status with
        | Some n => Ret (negb (n =? 0)%Z)
        | None => Raise (ValueError "invalid literal for int() with base 10")
        end
    end in
  match failed with
  | Ret true =>
      let error :=
        if (2 <? List.length tokens)%nat then nth 2 tokens "" else "Unknown remote error" in
      Raise (OperationalError ("HandlerSocket returned an error code: " ++ error))
  | Ret false =>
      match nth_error tokens 1 with
      | None => Raise (IndexError "list index out of range")
      | Some count =>
          match int count with
          | None => Raise (ValueError "invalid literal for int() with base 10")
          | Some columns =>
              let decoded_tokens := map decode (skipn 2 tokens) in
              match repeat_error columns with
              | Some x => Raise x
              | None => Ret (zip_star decoded_tokens columns)
              end
          end
      end
  | Raise x => Raise x
  | Stuck => Stuck
  end.

(** [HandlerSocket._call]; [query] is the list of the tokens the iterator
    gives. *)
Definition _call (index_id : option Z) (query : list string) (force_index : bool)
    : M State (list row) :=
  conn <- _get_connection index_id force_index ;;
  try_except
    (send conn (join (str1 TAB) query ++ str1 LF) ;;;
     line <- readline conn ;;
     lift (_parse_response line))
    is_ConnectionError
    (fun e => purge_index index_id ;;; raise e).

(** [HandlerSocket._open_index]; [fields] is the joined string. *)
Definition _open_index (index_id : Z) (db table fields index_name : string)
    : M State (list row) :=
  let encoded := map encode [Some db; Some table; Some index_name; Some fields] in
  let query := "P" :: str_of_int index_id :: encoded in
  _call (Some index_id) query false.

(** [index_name or 'PRIMARY']. *)
Definition index_name_or_PRIMARY (index_name : option string) : string :=
  match index_name with
  | Some name => if String.eqb name "" then "PRIMARY" else name
  | None => "PRIMARY"
  end.

(** The key of the index cache in [get_index_id]. *)
Definition cache_key (db table : string) (fields : list string)
    (index_name : option string) : string :=
  let index_name := index_name_or_PRIMARY index_name in
  let fields := join "," fields in
  join ":" [db; table; index_name; fields].

(** [HandlerSocket.get_index_id]. The response of [_open_index] is a list,
    never [None], so the final [return None] of the source is not reached
    and the result is an integer. *)
Definition get_index_id (db table : string) (fields : list string)
    (index_name : option string) : M State Z :=
  let key := cache_key db table fields index_name in
  st <- get ;;
  match Dict.lookup String.eqb (index_cache (self st)) key with
  | Some index_id => ret index_id
  | None =>
      response <- _open_index (current_index_id (self st)) db table
                    (join "," fields) (index_name_or_PRIMARY index_name) ;;
      st <- get ;;
      let index_id := current_index_id (self st) in
      set_index_cache (Dict.store String.eqb (index_cache (self st)) key index_id) ;;;
      set_current_index_id (index_id + 1)%Z ;;;
      ret index_id
  end.

Fixpoint for_each {A} (l : list A) (body : A -> M State unit) : M State unit :=
  match l with
  | [] => ret tt
  | x :: l => body x ;;; for_each l body
  end.

(** [HandlerSocket.purge_indexes] and [HandlerSocket.purge]. *)
Definition purge_indexes : M State unit :=
  st <- get ;;
  for_each (map snd (index_map (self st))) disconnect ;;;
  _clear_caches.

Definition purge : M State unit :=
  st <- get ;;
  for_each (seq 0 (List.length (connections (self st)))) disconnect ;;;
  _clear_caches.

(** *** class ReadSocket *)

Definition find (index_id : Z) (operation : string) (columns : list (option string))
    (limit offset : Z) : M State (list row) :=
  if negb (mem operation FIND_OPERATIONS)
  then raise (ValueError "Operation is not supported.")
  else if negb (check_columns columns)
  then raise (ValueError "Columns must be a non-empty iterable.")
  else
    let query :=
      ([str_of_int index_id; operation; str_of_int (Z.of_nat (List.length columns))]
       ++ map encode columns
       ++ [str_of_int limit; str_of_int offset])%list in
    _call (Some index_id) query true.

(** *** class WriteSocket *)

Definition find_modify (index_id : Z) (operation : string)
    (columns : list (option string)) (modify_operation : string)
    (modify_columns : list (option string)) (limit offset : Z)
    : M State (list row) :=
  if negb (mem operation FIND_OPERATIONS)
     || negb (mem modify_operation MODIFY_OPERATIONS)
  then raise (ValueError "Operation is not supported.")
  else if negb (check_columns columns)
  then raise (ValueError "Columns must be a non-empty iterable.")
  else if mem modify_operation ["U"; "+"; "-"; "U?"; "+?"; "-?"]
          && negb (check_columns modify_columns)
  then raise (ValueError
                "Modify_columns must be a non-empty iterable for update operation")
  else
    let query :=
      ([str_of_int index_id; operation; str_of_int (Z.of_nat (List.length columns))]
       ++ map encode columns
       ++ [str_of_int limit; str_of_int offset; modify_operation]
       ++ map encode modify_columns)%list in
    _call (Some index_id) query true.

Definition insert (index_id : Z) (columns : list (option string)) : M State bool :=
  if negb (check_columns columns)
  then raise (ValueError "Columns must be a non-empty iterable.")
  else
    let query :=
      ([str_of_int index_id; "+"; str_of_int (Z.of_nat (List.length columns))]
       ++ map encode columns)%list in
    _call (Some index_id) query true ;;;
    ret true.

(** The state with another key cache, with another index map. *)
Definition put_cache (st : State) (d : Dict.dict string Z) : State :=
  mkState
    (mkHandlerSocket (connections (self st)) (index_map (self st))
       (current_index_id (self st)) d (last_connection_exception (self st)))
    (script st) (wire st).

Definition put_map (st : State) (m : Dict.dict Z ref) : State :=
  mkState
    (mkHandlerSocket (connections (self st)) m (current_index_id (self st))
       (index_cache (self st)) (last_connection_exception (self st)))
    (script st) (wire st).

(** An entry of the key cache that belongs to another id. *)
Definition other_id (id : Z) (kv : string * Z) : Prop := snd kv <> id.

End Sockets.

(** ** Words of the specification *)

(** The modify operators as the specification lists them: one of the given
    letters, with or without a question mark after it. *)
Definition suffixed (bases : list string) (op : string) : Prop :=
  exists base, In base bases /\ (op = base \/ op = base ++ "?").

Ltac in_list := simpl; repeat first [left; reflexivity | right].

(** One step of a run: the combinators unfolded, the fields of the states
    that are known read. *)
Ltac unfold_run :=
  cbv beta iota zeta delta
    [bind get ret raise stuck try_except modify
     Sockets.get_conn Sockets.set_conn Sockets.set_socket Sockets.set_retry_time
     Sockets.set_index_map Sockets.with_self Sockets.log Sockets.next_answer
     Sockets.sock_recv Sockets.sock_connect Sockets.sock_sendall
     Sockets.time_time Sockets.random_shuffle Sockets.lift];
  cbn [Sockets.self Sockets.script Sockets.wire Sockets.connections
       Sockets.index_map Sockets.current_index_id Sockets.index_cache
       Sockets.last_connection_exception Sockets.socket Sockets.retry_time].

(** ** Runs used in the statements *)

Module Scenario.
Import Utils Py Sockets.

(** A response line made of the given tokens, as [recv] delivers it. *)
Definition line (tokens : list string) : socket_error + string :=
  inr (join (str1 TAB) tokens ++ str1 LF).

(** [OSError(32, 'Broken pipe')]. *)
Definition broken_pipe : socket_error := SocketError [AInt 32; AStr "Broken pipe"].

(** A pool fresh from [HandlerSocket(servers)] and what its environment
    will answer. *)
Definition fresh (servers : nat) (answers : list answer) : State :=
  mkState (new_pool servers) answers [].

(** A status-0 frame announcing two columns and carrying three fields. *)
Definition odd_frame : string := join (str1 TAB) ["0"; "2"; "a"; "b"; "c"].

(** Two indexes opened on connection 0 of a pool of two; then a [find] on
    the first index whose [sendall] fails at time 100; then a [find] on the
    second index at time 110, while connection 0 backs off until 130, with
    connection 1 reachable. *)
Definition two_indexes : list answer :=
  [ Shuffled [1; 0]%nat; Connected (inr 7%nat); Sent None; Received (line ["0"; "1"]);
    Shuffled [1; 0]%nat; Sent None; Received (line ["0"; "1"]);
    Shuffled [0; 1]%nat; Sent (Some broken_pipe); Clock 100;
    Shuffled [0; 1]%nat; Clock 110; Connected (inr 8%nat); Sent None;
    Received (line ["0"; "1"; "x"]) ].

Definition open_two : M State (Z * Z) :=
  i0 <- get_index_id "db" "t" ["a"] None ;;
  i1 <- get_index_id "db" "t" ["b"] None ;;
  ret (i0, i1).

(** One server that refuses to open the index. *)
Definition refused_open : list answer :=
  [ Shuffled [0%nat]; Connected (inr 7%nat); Sent None;
    Received (line ["1"; "1"; "open_table"]) ].

(** One server that opens the index. *)
Definition accepted_open : list answer :=
  [ Shuffled [0%nat]; Connected (inr 7%nat); Sent None; Received (line ["0"; "1"]) ].

(** One server whose peer closes the stream: [recv] returns no byte. *)
Definition closed_by_peer : list answer :=
  [ Connected (inr 7%nat); Received (inr "") ].

(** One server: [sendall] of the open request fails at time 100; the next
    call comes at time 101, within the 30 units of back-off. *)
Definition only_server_backing_off : list answer :=
  [ Shuffled [0%nat]; Connected (inr 7%nat); Sent (Some broken_pipe); Clock 100;
    Shuffled [0%nat]; Clock 101; Clock 101; Clock 101; Clock 101; Clock 101 ].

End Scenario.

(** ** Further notions used in the statements *)

(** The characters of a string, in order. *)
Definition chars (s : string) : list ascii := list_ascii_of_string s.

(** A token that holds neither the separator of tokens nor the end of
    line. *)
Definition clean (s : string) : Prop :=
  ~ In Py.TAB (chars s) /\ ~ In Py.LF (chars s).

(** A string in which the character [c] does not occur. *)
Definition free_of (c : ascii) (s : string) : Prop := ~ In c (chars s).

(** The state after [_die] on connection [c] at time [t]: the connection
    has no socket and may be retried at [t + RETRY_INTERVAL]. *)
Definition died (st : Sockets.State) (c : Sockets.ref) (t : Z)
    (rest : list Sockets.answer) (w : list Sockets.event) : Sockets.State :=
  Sockets.mkState
    (Sockets.mkHandlerSocket
       (Sockets.update_nth c
          (fun _ => Sockets.mkConnection None (t + Sockets.RETRY_INTERVAL))
          (Sockets.connections (Sockets.self st)))
       (Sockets.index_map (Sockets.self st))
       (Sockets.current_index_id (Sockets.self st))
       (Sockets.index_cache (Sockets.self st))
       (Sockets.last_connection_exception (Sockets.self st)))
    rest w.

(** What [_die] raises for the socket error [e] met while doing [msg]: the
    connection error made of [msg] and of the only argument of [e], when
    that argument is neither zero nor empty, or of its second argument,
    when it has several; the [IndexError] of [e.args[1]] when there is no
    such argument. *)
Definition die_raises (e : Sockets.socket_error) (msg : string) : exn :=
  match Sockets.args e with
  | [] => IndexError "tuple index out of range"
  | [a] =>
      if Py.truthy a then ConnectionError (msg ++ ": " ++ Py.str_of_arg a)
      else IndexError "tuple index out of range"
  | _ :: b :: _ => ConnectionError (msg ++ ": " ++ Py.str_of_arg b)
  end.

(** A chunk [data] that [recv] delivers, with the text [text] it decodes
    to, after which the loop of [readline] goes on: some byte, and no line
    feed. *)
Definition passes (data text : string) : Prop :=
  data <> "" /\ Py.bytes_decode data = Ret text /\ free_of Py.LF text.

(** The [close] that [disconnect] makes, if the connection has a socket. *)
Definition close_events (conn : Sockets.Connection) (c : Sockets.ref)
    : list Sockets.event :=
  match Sockets.socket conn with Some _ => [Sockets.EvClose c] | None => [] end.

(** The chunks received, put end to end. *)
Fixpoint concat_all (l : list string) : string :=
  match l with
  | [] => ""
  | x :: l => x ++ concat_all l
  end.

(** A pool of one connection that is connected, with descriptor 7, and
    what its environment will answer. *)
Definition one_connected (answers : list Sockets.answer) : Sockets.State :=
  Sockets.mkState
    (Sockets.mkHandlerSocket [Sockets.mkConnection (Some 7%nat) 0] [] 0 [] None)
    answers [].

(** A pool of one connected connection on which the index of id 0 is
    open, under the given keys of the cache. *)
Definition one_index (cache : Dict.dict string Z) (answers : list Sockets.answer)
    : Sockets.State :=
  Sockets.mkState
    (Sockets.mkHandlerSocket [Sockets.mkConnection (Some 7%nat) 0]
       [(0%Z, 0%nat)] 1 cache None)
    answers [].

(** ** What the operations keep *)

Module Kept.
Import Utils Py Sockets.

(** [sub l l0]: [l] is [l0] with some of its elements taken out. *)
Inductive sub {B : Type} : list B -> list B -> Prop :=
| sub_nil : sub [] []
| sub_keep (x : B) (l l0 : list B) : sub l l0 -> sub (x :: l) (x :: l0)
| sub_drop (x : B) (l l0 : list B) : sub l l0 -> sub l (x :: l0).

(** What the requests keep: the size [n] of the pool, index ids bound to
    connections of the pool, the id counter [m], and a key cache that only
    loses entries of [d0]. *)
Definition framed (n : nat) (m : Z) (d0 : Dict.dict string Z) (st : State) : Prop :=
  List.length (connections (self st)) = n
  /\ Forall (fun kv => (snd kv < n)%nat) (index_map (self st))
  /\ current_index_id (self st) = m
  /\ sub (index_cache (self st)) d0.

(** What the registry keeps: ids bound to connections of the pool, cached
    ids below the counter and different from one another. *)
Definition registry_ok (n : nat) (st : State) : Prop :=
  List.length (connections (self st)) = n
  /\ Forall (fun kv => (snd kv < n)%nat) (index_map (self st))
  /\ Forall (fun kv => (snd kv < current_index_id (self st))%Z) (index_cache (self st))
  /\ NoDup (map snd (index_cache (self st))).

(** [c] keeps [I] whatever its outcome, and its results satisfy [R]. *)
Definition keeps {A : Type} (I : State -> Prop) (c : M State A) (R : A -> Prop) : Prop :=
  forall st, I st ->
    match c st with
    | (Ret a, st') => I st' /\ R a
    | (Raise _, st') => I st'
    | (Stuck, st') => I st'
    end.

(** Index ids are bound to connections of the pool. *)
Definition refs_ok (st : State) : Prop :=
  Forall (fun kv => (snd kv < List.length (connections (self st)))%nat)
    (index_map (self st)).

(** [st'] is [st] after requests: same pool size, same counter, a cache
    that has only lost entries, ids still bound to connections of the
    pool. *)
Definition kept (st st' : State) : Prop :=
  framed (List.length (connections (self st))) (current_index_id (self st))
    (index_cache (self st)) st'.

(** A connection after [disconnect]. *)
Definition closed (conn : Connection) : Connection :=
  mkConnection None (retry_time conn).

(** The pool after [_clear_caches]. *)
Definition cleared (conns : list Connection) : HandlerSocket :=
  mkHandlerSocket conns [] 0 [] None.

End Kept.
Export Kept.

(** ** Numbers and requests on the wire *)

Module Wire.
Import Utils Py Sockets.

(** The value of the digits of [d] read after the value [acc]. *)
Fixpoint zacc (d : Decimal.uint) (acc : Z) : Z :=
  match d with
  | Decimal.Nil => acc
  | Decimal.D0 d => zacc d (10 * acc + 0)
  | Decimal.D1 d => zacc d (10 * acc + 1)
  | Decimal.D2 d => zacc d (10 * acc + 2)
  | Decimal.D3 d => zacc d (10 * acc + 3)
  | Decimal.D4 d => zacc d (10 * acc + 4)
  | Decimal.D5 d => zacc d (10 * acc + 5)
  | Decimal.D6 d => zacc d (10 * acc + 6)
  | Decimal.D7 d => zacc d (10 * acc + 7)
  | Decimal.D8 d => zacc d (10 * acc + 8)
  | Decimal.D9 d => zacc d (10 * acc + 9)
  end%Z.

(** A character of a number written in base ten. *)
Definition numeric (c : ascii) : Prop :=
  c = "-"%char \/ exists d, digit_of c = Some d.







End Wire.
Export Wire.

(** * Proofs *)

(** ** Characters of the escape range *)

Section CodecFacts.
Import Utils.

Lemma escape_low (c : ascii) :
  (ord c <=? 0x0f)%N = true ->
  let e := chr (N.lor (ord c) 0x40) in
  ((0x40 <=? ord e) && (ord e <=? 0x4f))%N = true /\ chr (N.lxor (ord e) 0x40) = c.
Proof.
  destruct c as [[] [] [] [] [] [] [] []]; vm_compute; intros H;
    try discriminate H; split; reflexivity.
Qed.

Lemma high_not_SOH (c : ascii) :
  (ord c <=? 0x0f)%N = false -> Ascii.eqb c SOH = false.
Proof.
  destruct c as [[] [] [] [] [] [] [] []]; vm_compute; intros H;
    try discriminate H; reflexivity.
Qed.

Lemma high_not_NUL (c : ascii) :
  (ord c <=? 0x0f)%N = false -> Ascii.eqb c NUL = false.
Proof.
  destruct c as [[] [] [] [] [] [] [] []]; vm_compute; intros H;
    try discriminate H; reflexivity.
Qed.

Lemma append_assoc (a b c : string) : (a ++ b) ++ c = a ++ (b ++ c).
Proof. induction a as [|x a IH]; simpl; [reflexivity | now rewrite IH]. Qed.

Lemma append_nil_r (a : string) : a ++ "" = a.
Proof. induction a as [|x a IH]; simpl; [reflexivity | now rewrite IH]. Qed.

Lemma encode_loop_cons (output : string) (c : ascii) (value : string) :
  encode_loop output (String c value) = encode_loop (output ++ escape c) value.
Proof. unfold escape; simpl; destruct (ord c <=? 0x0f)%N; reflexivity. Qed.

Lemma encode_loop_output (value output : string) :
  encode_loop output value = output ++ encode_loop "" value.
Proof.
  revert output; induction value as [|c value IH]; intros output.
  - simpl; now rewrite append_nil_r.
  - rewrite !encode_loop_cons, (IH (output ++ escape c)), (IH ("" ++ escape c)).
    simpl; now rewrite append_assoc.
Qed.

Lemma decode_loop_escape (c : ascii) (decoded rest : string) :
  decode_loop decoded (escape c ++ rest) = decode_loop (decoded ++ str1 c) rest.
Proof.
  unfold escape; destruct (ord c <=? 0x0f)%N eqn:Hc.
  - destruct (escape_low c Hc) as [Hrange Hback]; cbn zeta in Hrange, Hback.
    cbn [append str1 decode_loop]; change (Ascii.eqb SOH SOH) with true; cbn iota.
    now rewrite Hrange, Hback.
  - cbn [append str1 decode_loop]; now rewrite (high_not_SOH c Hc).
Qed.

(** Decoding what the encoder wrote gives the value back, after whatever was
    decoded before. *)
Lemma decode_encode_loop (value decoded : string) :
  decode_loop decoded (encode_loop "" value) = decoded ++ value.
Proof.
  revert decoded; induction value as [|c value IH]; intros decoded.
  - simpl; now rewrite append_nil_r.
  - rewrite encode_loop_cons, encode_loop_output; simpl append at 1.
    rewrite decode_loop_escape, IH, append_assoc; reflexivity.
Qed.

(** The encoder never writes the lone NUL that stands for [None]. *)
Lemma encode_loop_not_NUL (value : string) :
  String.eqb (encode_loop "" value) (str1 NUL) = false.
Proof.
  destruct value as [|c value]; [reflexivity|].
  rewrite encode_loop_cons, encode_loop_output; simpl append at 1.
  unfold escape; destruct (ord c <=? 0x0f)%N eqn:Hc.
  - reflexivity.
  - cbn [append str1 String.eqb]; now rewrite (high_not_NUL c Hc).
Qed.

(** C3. Round trip of the codec: for [None] and for every string of bytes
    (the empty one and those holding bytes of the escape range included),
    decoding the encoded value gives the value back. *)
Theorem decode_encode (v : option string) : decode (encode v) = v.
Proof.
  destruct v as [value|]; [|reflexivity].
  unfold decode, encode; rewrite encode_loop_not_NUL, decode_encode_loop.
  reflexivity.
Qed.

End CodecFacts.

(** ** The retry decorator *)

Section Retry.
Context {S A : Type}.

(** C8. The retry guard invokes the wrapped operation once. When that
    invocation raises a recoverable connection error, the operation is
    invoked exactly once more, from the state the first invocation left, and
    whatever the second invocation gives (a result or any failure) is the
    outcome. Any other outcome of the first invocation (a result, or a
    failure that is not a recoverable connection error) is passed on as it
    is. The second component counts the invocations. *)
Theorem retry_on_failure_once (func : M S A) (s : S) :
  retry_on_failure func s =
    match func s with
    | (Raise (RecoverableConnectionError _), s1) => func s1
    | r => r
    end
  /\
  retry_on_failure (counted func) (0, s) =
    match func s with
    | (Raise (RecoverableConnectionError _), s1) =>
        let (r2, s2) := func s1 in (r2, (2, s2))
    | (r1, s1) => (r1, (1, s1))
    end.
Proof.
  unfold retry_on_failure, counted, bind, try_except, ret; cbn [fst snd].
  destruct (func s) as [[a|e|] s1]; cbn [fst snd]; [split; reflexivity | | split; reflexivity].
  destruct e; cbn [is_RecoverableConnectionError fst snd]; try (split; reflexivity).
  destruct (func s1) as [[a|e|] s2]; split; reflexivity.
Qed.

End Retry.

(** ** Validation in the request builders *)

Section Validation.
Import Utils Py Sockets.

Lemma mem_In (x : string) (l : list string) : mem x l = true <-> In x l.
Proof.
  unfold mem; rewrite existsb_exists; split.
  - intros [y [Hy Heq]]; apply String.eqb_eq in Heq; now subst.
  - intros H; exists x; split; [assumption | apply String.eqb_refl].
Qed.

Lemma mem_not_In (x : string) (l : list string) : ~ In x l -> mem x l = false.
Proof.
  intros H; destruct (mem x l) eqn:E; [|reflexivity].
  apply mem_In in E; contradiction.
Qed.

Lemma MODIFY_OPERATIONS_suffixed (op : string) :
  mem op MODIFY_OPERATIONS = true -> suffixed ["U"; "D"; "+"; "-"] op.
Proof.
  intros H; apply mem_In in H; unfold suffixed; simpl in H.
  destruct H as [H|[H|[H|[H|[H|[H|[H|[H|[]]]]]]]]]; subst op.
  - exists "U"; split; [in_list | left; reflexivity].
  - exists "D"; split; [in_list | left; reflexivity].
  - exists "+"; split; [in_list | left; reflexivity].
  - exists "-"; split; [in_list | left; reflexivity].
  - exists "U"; split; [in_list | right; reflexivity].
  - exists "D"; split; [in_list | right; reflexivity].
  - exists "+"; split; [in_list | right; reflexivity].
  - exists "-"; split; [in_list | right; reflexivity].
Qed.

Lemma substituting_mem (op : string) :
  suffixed ["U"; "+"; "-"] op -> mem op ["U"; "+"; "-"; "U?"; "+?"; "-?"] = true.
Proof.
  intros [base [Hb Hop]]; simpl in Hb.
  destruct Hb as [Hb|[Hb|[Hb|[]]]]; subst base; destruct Hop; subst op; reflexivity.
Qed.

Lemma check_columns_nil {B : Type} : check_columns (@nil B) = false.
Proof. reflexivity. Qed.

(** C9. [find_modify] raises a validation error, and leaves the state as it
    was (nothing is read from the environment, no socket call is made), when
    the comparison operator is not one of =, >, >=, <, <=, or the modify
    operator is not one of U, D, +, - with or without a question mark, or
    the column list is empty, or the modify operator is an update, an
    increment or a decrement and the list of modify values is empty. *)
Theorem find_modify_validates (index_id : Z) (operation : string)
    (columns : list (option string)) (modify_operation : string)
    (modify_columns : list (option string)) (limit offset : Z) (st : State) :
  ~ In operation ["="; ">"; ">="; "<"; "<="]
  \/ ~ suffixed ["U"; "D"; "+"; "-"] modify_operation
  \/ columns = []
  \/ (suffixed ["U"; "+"; "-"] modify_operation /\ modify_columns = []) ->
  exists msg,
    find_modify index_id operation columns modify_operation modify_columns
      limit offset st = (Raise (ValueError msg), st).
Proof.
  intros H; unfold find_modify.
  destruct (mem operation FIND_OPERATIONS) eqn:Hop; cbn [negb orb];
    [|eexists; reflexivity].
  destruct (mem modify_operation MODIFY_OPERATIONS) eqn:Hmod; cbn [negb];
    [|eexists; reflexivity].
  destruct (check_columns columns) eqn:Hcols; cbn [negb];
    [|eexists; reflexivity].
  destruct H as [H|[H|[H|[Hsub Hnil]]]].
  - apply mem_In in Hop; contradiction.
  - apply MODIFY_OPERATIONS_suffixed in Hmod; contradiction.
  - subst columns; discriminate Hcols.
  - subst modify_columns; rewrite (substituting_mem _ Hsub), check_columns_nil.
    eexists; reflexivity.
Qed.

End Validation.

(** The validation at work: an empty column list on a fresh pool. *)
Lemma find_modify_validates_witness :
  exists msg,
    Sockets.find_modify 0 "=" [] "U" [Some "x"] 1 0
      (Sockets.mkState (Sockets.new_pool 1) [] [])
    = (Raise (ValueError msg), Sockets.mkState (Sockets.new_pool 1) [] []).
Proof.
  apply find_modify_validates; right; right; left; reflexivity.
Defined.

(** ** The index cache *)

Section IndexCache.
Import Utils Py Sockets.

Lemma lookup_store (d : Dict.dict string Z) (k : string) (v : Z) :
  Dict.lookup String.eqb (Dict.store String.eqb d k v) k = Some v.
Proof.
  induction d as [|[k' v'] d IH]; simpl.
  - now rewrite String.eqb_refl.
  - destruct (String.eqb k' k) eqn:E; simpl; rewrite E; [reflexivity | exact IH].
Qed.

(** After [get_index_id] has returned an id, the cache holds it under the
    key of the call. *)
Lemma get_index_id_cached (db table : string) (fields : list string)
    (index_name : option string) (st st' : State) (i : Z) :
  get_index_id db table fields index_name st = (Ret i, st') ->
  Dict.lookup String.eqb (index_cache (self st'))
    (cache_key db table fields index_name) = Some i.
Proof.
  unfold get_index_id, bind, get.
  destruct (Dict.lookup String.eqb (index_cache (self st)) _) as [j|] eqn:Hhit.
  - unfold ret; intros H; inversion H; subst; exact Hhit.
  - destruct (_open_index _ _ _ _ _ st) as [[rows|e|] st1]; try discriminate.
    unfold set_index_cache, set_current_index_id, with_self, modify, ret; cbn.
    intros H; inversion H; subst; cbn; apply lookup_store.
Qed.

(** A call whose key is in the cache returns the cached id and touches
    nothing. *)
Lemma get_index_id_hit (db table : string) (fields : list string)
    (index_name : option string) (st : State) (i : Z) :
  Dict.lookup String.eqb (index_cache (self st))
    (cache_key db table fields index_name) = Some i ->
  get_index_id db table fields index_name st = (Ret i, st).
Proof.
  intros H; unfold get_index_id, bind, get; now rewrite H.
Qed.


End IndexCache.

(** ** Rows of a response *)

Section Rows.
Import Utils Py Sockets.
Context {B : Type}.

(** [n] calls of [next] succeed exactly when [n] elements are left. *)
Lemma next_n_firstn (n : nat) (it : list B) :
  next_n n it =
    if (n <=? List.length it)%nat then Some (firstn n it, skipn n it) else None.
Proof.
  revert it; induction n as [|n IH]; intros it; [reflexivity|].
  destruct it as [|x it]; [reflexivity|].
  cbn [next_n List.length firstn skipn]; rewrite IH.
  change (S n <=? S (List.length it))%nat with (n <=? List.length it)%nat.
  destruct (n <=? List.length it)%nat; reflexivity.
Qed.

Lemma firstn_plus (n m : nat) (l : list B) :
  firstn (n + m) l = (firstn n l ++ firstn m (skipn n l))%list.
Proof.
  revert l; induction n as [|n IH]; intros l; [reflexivity|].
  destruct l as [|x l]; cbn [Nat.add firstn skipn app].
  - now rewrite firstn_nil.
  - now rewrite IH.
Qed.

(** With enough fuel the loop of [zip] gives the complete rows, in order,
    and nothing of an incomplete last one. *)
Lemma zip_loop_rows (n fuel : nat) (it : list B) :
  (0 < n)%nat -> (List.length it <= fuel)%nat ->
  List.length (zip_loop fuel n it) = (List.length it / n)%nat
  /\ Forall (fun r => List.length r = n) (zip_loop fuel n it)
  /\ List.concat (zip_loop fuel n it) = firstn (n * (List.length it / n)) it.
Proof.
  intros Hn; revert it; induction fuel as [|fuel IH]; intros it Hfuel.
  - destruct it; [|simpl in Hfuel; lia].
    cbn [zip_loop List.length List.concat]; rewrite Nat.Div0.div_0_l, firstn_nil.
    repeat split; constructor.
  - cbn [zip_loop]; rewrite next_n_firstn.
    destruct (n <=? List.length it)%nat eqn:Hle.
    + apply Nat.leb_le in Hle.
      assert (Hlen : List.length (skipn n it) = (List.length it - n)%nat)
        by apply length_skipn.
      destruct (IH (skipn n it)) as [H1 [H2 H3]]; [lia|].
      assert (Hdiv : (List.length it / n = S ((List.length it - n) / n))%nat).
      { replace (List.length it) with ((List.length it - n) + 1 * n)%nat at 1 by lia.
        rewrite Nat.div_add by lia; lia. }
      repeat split.
      * cbn [List.length]; rewrite H1, Hlen, Hdiv; reflexivity.
      * constructor; [rewrite length_firstn; lia | exact H2].
      * cbn [List.concat]; rewrite H3, Hlen, Hdiv.
        replace (n * S ((List.length it - n) / n))%nat
          with (n + n * ((List.length it - n) / n))%nat by lia.
        now rewrite firstn_plus.
    + apply Nat.leb_gt in Hle.
      rewrite Nat.div_small by lia; rewrite Nat.mul_0_r.
      repeat split; constructor.
Qed.

End Rows.

Section ParseResponse.
Import Utils Py Sockets.

Lemma repeat_error_none (columns : Z) :
  (- PY_SSIZE_T_MAX - 1 <= columns)%Z -> (columns <= PY_SSIZE_T_MAX / 8)%Z ->
  repeat_error columns = None.
Proof.
  unfold repeat_error, PY_SSIZE_T_MAX; intros Hlow Hhigh.
  change (9223372036854775807 / 8)%Z with 1152921504606846975%Z in *.
  repeat match goal with
         | |- context [(?a <? ?b)%Z] => destruct (Z.ltb_spec a b); try lia
         end.
  reflexivity.
Qed.

(** C6, as the code has it. A response whose first token reads as status 0
    and whose second token reads as the column count N, where N is at most
    the number k of the tokens after them, is parsed without an error
    whether or not N divides k: for N > 0 the result is the complete rows
    of N decoded columns, in order, that is the first N * (k / N) of the k
    decoded tokens, and the k mod N tokens left are dropped; for N <= 0
    there is no row. The list of N references that is built first sets the
    range of N: no less than the least index, no more than a list holds. *)
Theorem parse_response_rows (raw_data status count : string)
    (fields : list string) (columns : Z) :
  split TAB raw_data = status :: count :: fields ->
  int status = Some 0%Z ->
  int count = Some columns ->
  (- PY_SSIZE_T_MAX - 1 <= columns <= Z.of_nat (List.length fields))%Z ->
  (columns <= PY_SSIZE_T_MAX / 8)%Z ->
  exists rows,
    _parse_response raw_data = Ret rows
    /\ ((columns <= 0)%Z -> rows = [])
    /\ ((0 < columns)%Z ->
        let n := Z.to_nat columns in
        let k := List.length fields in
        List.length rows = (k / n)%nat
        /\ Forall (fun r => List.length r = n) rows
        /\ List.concat rows = firstn (n * (k / n)) (map decode fields)).
Proof.
  intros Hsplit Hstatus Hcount [Hlow _] Hhigh; unfold _parse_response.
  rewrite Hsplit, Hstatus; cbn [Z.eqb negb nth_error skipn]; rewrite Hcount.
  rewrite (repeat_error_none columns Hlow Hhigh).
  eexists; split; [reflexivity|]; unfold zip_star; split.
  - intros Hle; apply Z.leb_le in Hle; now rewrite Hle.
  - intros Hlt; cbn zeta.
    assert (Hgt : (columns <=? 0)%Z = false) by (apply Z.leb_gt; exact Hlt).
    rewrite Hgt.
    destruct (zip_loop_rows (B := option string) (Z.to_nat columns)
                (List.length (map decode fields)) (map decode fields))
      as [H1 [H2 H3]]; [lia | lia |].
    rewrite !length_map in H1, H2, H3; rewrite !length_map.
    repeat split; assumption.
Qed.

End ParseResponse.

Section ParseResponseRuns.
Import Utils Py Sockets Scenario.

(** C6, as the specification has it, fails: this frame has status 0,
    announces two columns and carries three fields, which do not make
    complete rows, and parsing returns the one complete row without any
    error; the third field is lost. *)
Lemma parse_response_drops_tail :
  split TAB odd_frame = ["0"; "2"; "a"; "b"; "c"]
  /\ int "0" = Some 0%Z /\ int "2" = Some 2%Z
  /\ (List.length ["a"; "b"; "c"] mod 2 <> 0)%nat
  /\ _parse_response odd_frame = Ret [[Some "a"; Some "b"]].
Proof. repeat split; try reflexivity; vm_compute; discriminate. Qed.

(** The frame of two columns and three fields gives one row. *)
Lemma parse_response_rows_witness :
  exists rows, _parse_response odd_frame = Ret rows /\ List.length rows = 1%nat.
Proof.
  assert (Hrange : (- PY_SSIZE_T_MAX - 1 <= 2 <= Z.of_nat (List.length ["a"; "b"; "c"]))%Z)
    by (vm_compute; split; discriminate).
  assert (Hfits : (2 <= PY_SSIZE_T_MAX / 8)%Z) by (vm_compute; discriminate).
  destruct (parse_response_rows odd_frame "0" "2" ["a"; "b"; "c"] 2
              eq_refl eq_refl eq_refl Hrange Hfits) as [rows [Hret [_ Hrows]]].
  exists rows; split; [exact Hret | apply Hrows; reflexivity].
Defined.

End ParseResponseRuns.

(** ** Runs of the pool *)

Section PoolRuns.
Import Utils Py Sockets Scenario.

(** C1, on the code. Both indexes are opened on connection 0. The [find] on
    index 0 fails in [sendall], which sends connection 0 into back-off while
    index 1 stays registered to it. The [find] on index 1, with affinity
    required, then skips connection 0 as not ready, takes connection 1 of
    the shuffled pool, rebinds index 1 to it and sends the query there. *)
Theorem affinity_lost_while_owner_backs_off :
  exists st1 e st2 st3,
    open_two (fresh 2 two_indexes) = (Ret (0, 1)%Z, st1)
    /\ Dict.lookup Z.eqb (index_map (self st1)) 1%Z = Some 0%nat
    /\ find 0 "=" [Some "1"] 1 0 st1 = (Raise e, st2)
    /\ Dict.lookup Z.eqb (index_map (self st2)) 1%Z = Some 0%nat
    /\ find 1 "=" [Some "1"] 1 0 st2 = (Ret [[Some "x"]], st3)
    /\ wire st3 =
         (EvRecv 1 :: EvSendall 1 (join (str1 TAB) ["1"; "="; "1"; "1"; "1"; "0"] ++ str1 LF)
          :: EvConnect 1 :: wire st2)%list
    /\ Dict.lookup Z.eqb (index_map (self st3)) 1%Z = Some 1%nat.
Proof.
  do 4 eexists.
  split; [vm_compute; reflexivity|].
  split; [reflexivity|].
  split; [vm_compute; reflexivity|].
  split; [reflexivity|].
  split; [vm_compute; reflexivity|].
  split; reflexivity.
Qed.

(** C2, on the code. The server answers the open request with an error
    status: [get_index_id] raises the operational error, the counter and
    the key cache are as before, and the index map keeps the entry that
    [_get_connection] made for the id, which has no key in the cache. *)
Theorem refused_open_leaves_map_entry :
  exists st',
    get_index_id "db" "t" ["a"] None (fresh 1 refused_open)
    = (Raise (OperationalError "HandlerSocket returned an error code: open_table"), st')
    /\ current_index_id (self st') = 0%Z
    /\ index_cache (self st') = []
    /\ index_map (self st') = [(0%Z, 0%nat)].
Proof.
  eexists; split; [vm_compute; reflexivity|]; repeat split; reflexivity.
Qed.

(** C4, on the code. An index is opened, so its id is in the index map and
    its key in the cache; [purge_index] of that id removes both and then
    raises [RuntimeError], when the iterator over the cache finds the
    dictionary smaller than it was. *)
Theorem purge_index_raises :
  exists st1 st2,
    get_index_id "db" "t" ["a"] None (fresh 1 accepted_open) = (Ret 0%Z, st1)
    /\ index_map (self st1) = [(0%Z, 0%nat)]
    /\ index_cache (self st1) = [("db:t:PRIMARY:a", 0%Z)]
    /\ purge_index (Some 0%Z) st1
       = (Raise (RuntimeError "dictionary changed size during iteration"), st2)
    /\ index_map (self st2) = []
    /\ index_cache (self st2) = [].
Proof.
  do 2 eexists; split; [vm_compute; reflexivity|].
  split; [reflexivity|]; split; [reflexivity|].
  split; [vm_compute; reflexivity|]; split; reflexivity.
Qed.

(** C5, on the code. On a connected connection whose peer closes the
    stream, [readline] raises the recoverable connection error; the
    connection keeps its socket, its back-off is not armed, and the socket
    was not closed. *)
Theorem readline_eof_keeps_socket :
  exists st1 st2,
    connect 0 (fresh 1 closed_by_peer) = (Ret tt, st1)
    /\ readline 0 st1
       = (Raise (RecoverableConnectionError "Connection closed on the remote end."), st2)
    /\ connections (self st2) = [mkConnection (Some 7%nat) 0]
    /\ wire st2 = [EvRecv 0; EvConnect 0].
Proof.
  do 2 eexists; split; [vm_compute; reflexivity|].
  split; [vm_compute; reflexivity|]; split; reflexivity.
Qed.

(** C7, on the code. The only server fails in [sendall], a failure that
    [_get_connection] does not see, so no cause is recorded; at the next
    call the server is in back-off, every pass of the search skips it, and
    the search ends by raising [AttributeError] on the missing cause, not
    the connection error. *)
Theorem exhaustion_without_cause :
  exists st1 st2,
    get_index_id "db" "t" ["a"] None (fresh 1 only_server_backing_off)
    = (Raise (ConnectionError "Send error: Broken pipe"), st1)
    /\ last_connection_exception (self st1) = None
    /\ index_map (self st1) = []
    /\ _get_connection (Some 0%Z) false st1
       = (Raise (AttributeError "'NoneType' object has no attribute 'args'"), st2)
    /\ script st2 = [].
Proof.
  do 2 eexists; split; [vm_compute; reflexivity|].
  split; [reflexivity|]; split; [reflexivity|].
  split; [vm_compute; reflexivity|]; reflexivity.
Qed.

End PoolRuns.

(** ** [purge_index] in general *)

Section Purge.
Import Utils Py Sockets.

Lemma delete_present (d : Dict.dict string Z) (k : string) (v : Z) :
  In (k, v) d ->
  exists d', Dict.delete String.eqb d k = Some d'
             /\ S (List.length d') = List.length d.
Proof.
  induction d as [|[k' v'] d IH]; intros Hin; [destruct Hin|].
  cbn [Dict.delete]; destruct (String.eqb k' k) eqn:E.
  - exists d; split; reflexivity.
  - destruct Hin as [Heq|Hin].
    + inversion Heq; subst; rewrite String.eqb_refl in E; discriminate.
    + destruct (IH Hin) as [d' [Hd Hlen]]; rewrite Hd.
      exists ((k', v') :: d'); split; [reflexivity | simpl; now rewrite Hlen].
Qed.

Lemma first_with_id (d : Dict.dict string Z) (k : string) (id : Z) :
  In (k, id) d ->
  exists pre k' post,
    d = (pre ++ (k', id) :: post)%list /\ Forall (other_id id) pre.
Proof.
  induction d as [|[k1 v1] d IH]; intros Hin; [destruct Hin|].
  destruct (Z.eq_dec v1 id) as [->|Hne].
  - exists [], k1, d; split; [reflexivity | constructor].
  - destruct Hin as [Heq|Hin]; [inversion Heq; subst; contradiction|].
    destruct (IH Hin) as [pre [k' [post [-> Hpre]]]].
    exists ((k1, v1) :: pre), k', post; split; [reflexivity|].
    constructor; [exact Hne | exact Hpre].
Qed.

(** The iterator walks over entries of other ids and stops at the end. *)
Lemma purge_loop_clean (id : Z) (rest seen : Dict.dict string Z)
    (fuel : nat) (st : State) :
  index_cache (self st) = (seen ++ rest)%list ->
  Forall (other_id id) rest ->
  (List.length rest < fuel)%nat ->
  purge_loop fuel (List.length (seen ++ rest)) (List.length seen) (Some id) st
  = (Ret tt, st).
Proof.
  revert seen fuel; induction rest as [|[k v] rest IH]; intros seen fuel Hc Hall Hfuel;
    (destruct fuel as [|fuel]; [simpl in Hfuel; lia|]);
    cbn [purge_loop]; unfold bind at 1, get at 1; rewrite Hc, Nat.eqb_refl; cbn [negb].
  - rewrite app_nil_r, (proj2 (nth_error_None _ _)) by lia; reflexivity.
  - rewrite nth_error_app2, Nat.sub_diag by lia; cbn [nth_error].
    inversion Hall as [|? ? Hv Hrest]; subst.
    unfold other_id in Hv; cbn [snd] in Hv.
    apply Z.eqb_neq in Hv; rewrite Hv.
    unfold bind at 1, ret at 1.
    replace (seen ++ (k, v) :: rest)%list with ((seen ++ [(k, v)]) ++ rest)%list
      by (now rewrite <- app_assoc).
    replace (S (List.length seen)) with (List.length (seen ++ [(k, v)])%list)
      by (rewrite length_app; simpl; lia).
    apply IH; [rewrite Hc, <- app_assoc; reflexivity | exact Hrest | simpl in Hfuel; lia].
Qed.

(** The iterator deletes the first key of the id and fails at the next
    step. *)
Lemma purge_loop_hit (id : Z) (pre seen post : Dict.dict string Z) (k : string)
    (fuel : nat) (st : State) (d : Dict.dict string Z) :
  index_cache (self st) = d ->
  d = (seen ++ pre ++ (k, id) :: post)%list ->
  Forall (other_id id) pre ->
  (S (List.length pre) < fuel)%nat ->
  exists d',
    Dict.delete String.eqb d k = Some d'
    /\ purge_loop fuel (List.length d) (List.length seen) (Some id) st
       = (Raise (RuntimeError "dictionary changed size during iteration"),
          put_cache st d').
Proof.
  intros Hd; revert seen fuel.
  induction pre as [|[k1 v1] pre IH]; intros seen fuel Hc Hall Hfuel;
    (destruct fuel as [|fuel]; [simpl in Hfuel; lia|]);
    cbn [purge_loop]; unfold bind at 1, get at 1; rewrite Hd, Nat.eqb_refl; cbn [negb].
  - destruct (delete_present d k id) as [d' [Hdel Hlen]].
    { rewrite Hc; apply in_or_app; right; left; reflexivity. }
    exists d'; split; [exact Hdel|].
    assert (Hnth : nth_error d (List.length seen) = Some (k, id)).
    { rewrite Hc; cbn [app]; rewrite nth_error_app2, Nat.sub_diag by lia; reflexivity. }
    rewrite Hnth, Z.eqb_refl, Hdel.
    destruct fuel as [|fuel]; [simpl in Hfuel; lia|].
    unfold bind at 1, set_index_cache, with_self, modify; cbn [purge_loop].
    unfold bind at 1, get at 1; cbn [self index_cache].
    replace (Nat.eqb (List.length d') (List.length d))
      with false by (symmetry; apply Nat.eqb_neq; lia).
    reflexivity.
  - assert (Hnth : nth_error d (List.length seen) = Some (k1, v1)).
    { rewrite Hc; cbn [app]; rewrite nth_error_app2, Nat.sub_diag by lia; reflexivity. }
    rewrite Hnth.
    inversion Hall as [|? ? Hv Hrest]; subst x l.
    unfold other_id in Hv; cbn [snd] in Hv.
    apply Z.eqb_neq in Hv; rewrite Hv.
    unfold bind at 1, ret at 1.
    replace (S (List.length seen)) with (List.length (seen ++ [(k1, v1)])%list)
      by (rewrite length_app; simpl; lia).
    apply IH; [rewrite Hc, <- app_assoc; reflexivity | exact Hrest | simpl in Hfuel; lia].
Qed.

Lemma delete_bound (m : Dict.dict Z ref) (id : Z) (c : ref) :
  Dict.lookup Z.eqb m id = Some c -> exists m', Dict.delete Z.eqb m id = Some m'.
Proof.
  induction m as [|[id' c'] m IH]; cbn [Dict.lookup Dict.delete]; [discriminate|].
  destruct (Z.eqb id' id); [intros _; now exists m|].
  intros H; destruct (IH H) as [m' ->]; now eexists.
Qed.

(** A registered id whose key is in the cache: [purge_index] does not
    return, it raises [RuntimeError]. *)
Lemma purge_index_cached_raises (st : State) (id : Z) (c : ref) (k : string) :
  Dict.lookup Z.eqb (index_map (self st)) id = Some c ->
  In (k, id) (index_cache (self st)) ->
  exists st',
    purge_index (Some id) st
    = (Raise (RuntimeError "dictionary changed size during iteration"), st').
Proof.
  intros Hmap Hin; unfold purge_index, bind at 1, get at 1.
  destruct (delete_bound _ _ _ Hmap) as [m' ->].
  destruct (first_with_id _ _ _ Hin) as [pre [k' [post [Hd Hpre]]]].
  unfold bind at 1, set_index_map, with_self, modify.
  destruct (purge_loop_hit id pre [] post k'
              (S (List.length (index_cache (self st))))
              (put_map st m') (index_cache (self st)) eq_refl Hd Hpre)
    as [d' [_ Hrun]].
  { rewrite Hd, length_app; simpl; lia. }
  eexists; exact Hrun.
Qed.

(** A registered id with no key in the cache, as while its index is being
    opened: [purge_index] removes the entry of the index map and returns. *)
Lemma purge_index_uncached (st : State) (id : Z) (c : ref) :
  Dict.lookup Z.eqb (index_map (self st)) id = Some c ->
  Forall (other_id id) (index_cache (self st)) ->
  exists m',
    Dict.delete Z.eqb (index_map (self st)) id = Some m'
    /\ purge_index (Some id) st = (Ret tt, put_map st m').
Proof.
  intros Hmap Hall; unfold purge_index, bind at 1, get at 1.
  destruct (delete_bound _ _ _ Hmap) as [m' Hm]; rewrite Hm.
  exists m'; split; [reflexivity|].
  unfold bind at 1, set_index_map, with_self, modify.
  exact (purge_loop_clean id (index_cache (self st)) []
           (S (List.length (index_cache (self st)))) (put_map st m')
           eq_refl Hall (Nat.lt_succ_diag_r _)).
Qed.

End Purge.

(** ** Connections in general *)

Section ConnectionFacts.
Import Utils Py Sockets.


Lemma update_nth_nth {B : Type} (f : B -> B) (l : list B) (n : nat) (x : B) :
  nth_error l n = Some x -> nth_error (update_nth n f l) n = Some (f x).
Proof.
  revert n; induction l as [|y l IH]; intros [|n]; cbn; try discriminate.
  - now intros [= ->].
  - apply IH.
Qed.

Lemma lookup_store_Z (m : Dict.dict Z ref) (id : Z) (c : ref) :
  Dict.lookup Z.eqb (Dict.store Z.eqb m id c) id = Some c.
Proof.
  induction m as [|[id' c'] m IH]; cbn.
  - now rewrite Z.eqb_refl.
  - destruct (Z.eqb id' id) eqn:E; cbn; rewrite E; [reflexivity | exact IH].
Qed.

(** The connection an index is registered to, when it is connected and not
    backing off, is the one [_get_connection] returns, without any socket
    call, and the index stays registered to it. *)
Lemma get_connection_bound_ready (st : State) (id : Z) (force_index : bool)
    (c : ref) (conn : Connection) (fd : nat) (order : list ref)
    (rest : list answer) :
  Dict.lookup Z.eqb (index_map (self st)) id = Some c ->
  nth_error (connections (self st)) c = Some conn ->
  socket conn = Some fd ->
  retry_time conn = 0%Z ->
  script st = Shuffled order :: rest ->
  same_elements (seq 0 (List.length (connections (self st)))) order = true ->
  exists st',
    _get_connection (Some id) force_index st = (Ret c, st')
    /\ wire st' = wire st
    /\ script st' = rest
    /\ Dict.lookup Z.eqb (index_map (self st')) id = Some c.
Proof.
  intros Hmap Hc Hs Hr Hscript Hperm.
  destruct st as [hs sc w]; cbn [self script wire] in *; subst sc.
  unfold _get_connection; unfold_run; cbn [self script wire].
  rewrite Hperm, Hmap.
  destruct (Nat.max RETRY_LIMIT (List.length order)) as [|n] eqn:Hmax;
    [unfold RETRY_LIMIT in Hmax; lia|].
  cbn [retry_loop]; unfold is_ready, connect; unfold_run; cbn [self connections].
  rewrite Hc, Hr; cbn [Z.eqb self connections].
  rewrite (update_nth_nth _ _ _ _ Hc); cbn [socket]; rewrite Hs.
  eexists; split; [reflexivity|]; cbn.
  repeat split; apply lookup_store_Z.
Qed.

End ConnectionFacts.

(** ** More on the codec *)

Section CodecMore.
Import Utils Py.

Lemma chars_app (a b : string) : chars (a ++ b) = (chars a ++ chars b)%list.
Proof.
  unfold chars; induction a as [|x a IH]; cbn [append list_ascii_of_string app];
    [reflexivity | now rewrite IH].
Qed.

Lemma length_append (a b : string) :
  String.length (a ++ b) = (String.length a + String.length b)%nat.
Proof. induction a as [|x a IH]; cbn; [reflexivity | now rewrite IH]. Qed.

Lemma encode_loop_app (a b : string) :
  encode_loop "" (a ++ b) = encode_loop "" a ++ encode_loop "" b.
Proof.
  induction a as [|c a IH]; [reflexivity|].
  cbn [append]; rewrite !encode_loop_cons.
  rewrite (encode_loop_output (a ++ b)), (encode_loop_output a), IH.
  cbn [append]; symmetry; apply append_assoc.
Qed.

Lemma decode_encode_any (v : option string) : decode (encode v) = v.
Proof.
  destruct v as [value|]; [|reflexivity].
  unfold decode, encode; now rewrite encode_loop_not_NUL, decode_encode_loop.
Qed.

(** Two values with the same encoding are the same value: [None] and the
    strings never share a token. *)
Theorem encode_injective (v1 v2 : option string) :
  encode v1 = encode v2 -> v1 = v2.
Proof.
  intros H; rewrite <- (decode_encode_any v1), <- (decode_encode_any v2), H; reflexivity.
Qed.

Lemma encode_injective_witness : Some "a b" = Some "a b".
Proof. apply encode_injective; reflexivity. Defined.

(** The encoding of a concatenation is the concatenation of the encodings. *)
Theorem encode_append (a b : string) :
  encode (Some (a ++ b)) = encode (Some a) ++ encode (Some b).
Proof. apply encode_loop_app. Qed.

Lemma escape_chars (c : ascii) :
  Forall (fun x => x = SOH \/ (0x0f < ord x)%N) (chars (escape c)).
Proof.
  unfold escape; destruct (ord c <=? 0x0f)%N eqn:Hc.
  - destruct (escape_low c Hc) as [Hrange _]; cbn zeta in Hrange.
    apply andb_prop in Hrange as [Hlo _]; apply N.leb_le in Hlo.
    cbn; constructor; [now left|]; constructor; [right; lia | constructor].
  - apply N.leb_gt in Hc; cbn; constructor; [now right | constructor].
Qed.

Lemma encode_loop_chars (value : string) :
  Forall (fun x => x = SOH \/ (0x0f < ord x)%N) (chars (encode_loop "" value)).
Proof.
  induction value as [|c value IH]; [constructor|].
  rewrite encode_loop_cons, encode_loop_output; cbn [append].
  rewrite chars_app; apply Forall_app; split; [apply escape_chars | exact IH].
Qed.

(** An encoded string holds no character of the range 0x00..0x0f but the
    escape lead 0x01: every character of it is that lead or lies above
    0x0f. *)
Theorem encode_escapes_all (value : string) :
  Forall (fun x => x = SOH \/ (0x0f < ord x)%N) (chars (encode (Some value))).
Proof. exact (encode_loop_chars value). Qed.

Lemma encode_free (v : option string) :
  free_of TAB (encode v) /\ free_of LF (encode v).
Proof.
  destruct v as [value|].
  - pose proof (encode_loop_chars value) as H; rewrite Forall_forall in H.
    split; intros Hin; destruct (H _ Hin) as [E|E]; try discriminate E;
      vm_compute in E; discriminate E.
  - split; cbn; intros [E|[]]; discriminate E.
Qed.

(** No encoded value, [None] included, holds a tab or a line feed. *)
Theorem encode_clean (v : option string) : clean (encode v).
Proof. exact (encode_free v). Qed.

Lemma escape_length (c : ascii) :
  (1 <= String.length (escape c) <= 2)%nat.
Proof. unfold escape; destruct (ord c <=? 0x0f)%N; cbn; lia. Qed.

(** Encoding never shortens a string and at most doubles it. *)
Theorem encode_length (value : string) :
  (String.length value <= String.length (encode (Some value))
   <= 2 * String.length value)%nat.
Proof.
  unfold encode; induction value as [|c value IH]; [cbn; lia|].
  rewrite encode_loop_cons, encode_loop_output; cbn [append].
  rewrite length_append; pose proof (escape_length c); cbn [String.length]; lia.
Qed.

Lemma decode_loop_plain (it decoded : string) :
  ~ In SOH (chars it) -> decode_loop decoded it = decoded ++ it.
Proof.
  revert decoded; induction it as [|c it IH]; intros decoded Hno.
  - cbn; now rewrite append_nil_r.
  - cbn [decode_loop]; destruct (Ascii.eqb c SOH) eqn:E.
    + apply Ascii.eqb_eq in E; subst c; exfalso; apply Hno; now left.
    + rewrite IH by (intros Hin; apply Hno; now right).
      rewrite append_assoc; reflexivity.
Qed.

(** A token without the escape lead, other than the lone NUL, decodes to
    itself. *)
Theorem decode_plain (value : string) :
  ~ In SOH (chars value) -> value <> str1 NUL -> decode value = Some value.
Proof.
  intros Hno Hnul; unfold decode.
  destruct (String.eqb value (str1 NUL)) eqn:E;
    [apply String.eqb_eq in E; contradiction|].
  now rewrite decode_loop_plain.
Qed.

Lemma decode_plain_witness : decode "alice" = Some "alice".
Proof.
  apply decode_plain; [vm_compute; intuition discriminate | discriminate].
Defined.

End CodecMore.

(** ** Splitting and joining *)

Section SplitJoin.
Import Utils Py Sockets.

Lemma split_loop_token (sep : ascii) (t cur rest : string) :
  free_of sep t -> split_loop sep cur (t ++ rest) = split_loop sep (cur ++ t) rest.
Proof.
  revert cur; induction t as [|c t IH]; intros cur Hfree.
  - cbn; now rewrite append_nil_r.
  - cbn [append split_loop]; destruct (Ascii.eqb c sep) eqn:E.
    + apply Ascii.eqb_eq in E; subst c; exfalso; apply Hfree; now left.
    + rewrite IH by (intros Hin; apply Hfree; now right).
      rewrite append_assoc; reflexivity.
Qed.

Lemma split_loop_join (sep : ascii) (tokens : list string) (t cur : string) :
  Forall (free_of sep) (t :: tokens) ->
  split_loop sep cur (join (str1 sep) (t :: tokens)) = (cur ++ t) :: tokens.
Proof.
  revert t cur; induction tokens as [|u tokens IH]; intros t cur Hall;
    inversion Hall as [|? ? Ht Hrest]; subst.
  - cbn [join String.concat].
    rewrite <- (append_nil_r t) at 1; rewrite split_loop_token by exact Ht.
    reflexivity.
  - change (join (str1 sep) (t :: u :: tokens))
      with (t ++ String sep (join (str1 sep) (u :: tokens))).
    rewrite split_loop_token by exact Ht.
    cbn [split_loop]; rewrite Ascii.eqb_refl.
    rewrite (IH u "" Hrest); reflexivity.
Qed.

(** Splitting a joined line gives the tokens back, when there is at least
    one token and no token holds the separator. *)
Theorem split_join (sep : ascii) (tokens : list string) :
  tokens <> [] -> Forall (free_of sep) tokens ->
  split sep (join (str1 sep) tokens) = tokens.
Proof.
  intros Hne Hall; destruct tokens as [|t tokens]; [contradiction|].
  unfold split; now rewrite split_loop_join.
Qed.

Lemma split_join_witness :
  split TAB (join (str1 TAB) ["0"; "1"; "x"]) = ["0"; "1"; "x"].
Proof.
  apply split_join; [discriminate|].
  repeat constructor; vm_compute; intuition discriminate.
Defined.

(** Columns sent as one line come back as they were: encoded, joined with
    tabs, split on tabs and decoded, a non-empty list of values, [None]
    among them or not, is unchanged. *)
Theorem columns_round_trip (columns : list (option string)) :
  columns <> [] ->
  map decode (split TAB (join (str1 TAB) (map encode columns))) = columns.
Proof.
  intros Hne; rewrite split_join.
  - rewrite map_map; rewrite <- (map_id columns) at 2.
    apply map_ext; intros v; apply decode_encode_any.
  - destruct columns; [contradiction | discriminate].
  - apply Forall_forall; intros t Hin; apply in_map_iff in Hin as [v [<- _]].
    exact (proj1 (encode_free v)).
Qed.

Lemma columns_round_trip_witness :
  map decode (split TAB (join (str1 TAB) (map encode [Some "1"; None; Some ""])))
  = [Some "1"; None; Some ""].
Proof. apply columns_round_trip; discriminate. Defined.

End SplitJoin.

(** ** The cache key on names without separators *)

Section CacheKey.
Import Utils Py Sockets.

Lemma join_free (c : ascii) (sep : string) (tokens : list string) :
  free_of c sep -> Forall (free_of c) tokens -> free_of c (join sep tokens).
Proof.
  intros Hsep Hall; unfold free_of in *.
  induction tokens as [|t tokens IH]; [intros []|].
  inversion Hall as [|? ? Ht Hrest]; subst.
  destruct tokens as [|u tokens]; [exact Ht|].
  change (join sep (t :: u :: tokens)) with (t ++ sep ++ join sep (u :: tokens)).
  rewrite !chars_app; intros Hin.
  apply in_app_or in Hin as [Hin|Hin]; [now apply Ht|].
  apply in_app_or in Hin as [Hin|Hin]; [now apply Hsep | now apply IH].
Qed.

Lemma cache_key_inj (db table : string) (fields : list string)
    (index_name : option string) (db' table' : string) (fields' : list string)
    (index_name' : option string) :
  Forall (free_of ":"%char)
    [db; table; index_name_or_PRIMARY index_name;
     db'; table'; index_name_or_PRIMARY index_name'] ->
  Forall (fun f => free_of ":"%char f /\ free_of ","%char f) fields ->
  Forall (fun f => free_of ":"%char f /\ free_of ","%char f) fields' ->
  fields <> [] -> fields' <> [] ->
  cache_key db table fields index_name = cache_key db' table' fields' index_name' ->
  db = db' /\ table = table'
  /\ index_name_or_PRIMARY index_name = index_name_or_PRIMARY index_name'
  /\ fields = fields'.
Proof.
  intros Hnames Hf Hf' Hne Hne' Hkey.
  assert (Hsplit : forall (l : list string),
             Forall (fun f => free_of ":"%char f /\ free_of ","%char f) l ->
             Forall (free_of ":"%char) l /\ Forall (free_of ","%char) l).
  { intros l Hl; split; eapply Forall_impl; try exact Hl; cbn; tauto. }
  destruct (Hsplit _ Hf) as [Hc Hm], (Hsplit _ Hf') as [Hc' Hm'].
  assert (Hcomma : free_of ":"%char ",") by (vm_compute; intuition discriminate).
  repeat match goal with H : Forall _ (_ :: _) |- _ => inversion H; clear H; subst end.
  unfold cache_key in Hkey; cbv zeta in Hkey.
  apply (f_equal (split ":"%char)) in Hkey.
  change ":" with (str1 ":"%char) in Hkey.
  rewrite !split_join in Hkey;
    try discriminate; try (repeat constructor; try assumption; now apply join_free).
  inversion Hkey as [[Hdb Htable Hname Hfields]].
  repeat split; try assumption.
  apply (f_equal (split ","%char)) in Hfields.
  change "," with (str1 ","%char) in Hfields.
  now rewrite !split_join in Hfields by assumption.
Qed.

(** On names that hold no colon and field lists that are not empty and
    hold neither colon nor comma, the cache key tells indexes apart: equal
    keys come only from the same database, table, index name (after the
    default is filled in) and fields, in the same order. *)
Theorem cache_key_injective (db table : string) (fields : list string)
    (index_name : option string) (db' table' : string) (fields' : list string)
    (index_name' : option string) :
  Forall (free_of ":"%char)
    [db; table; index_name_or_PRIMARY index_name;
     db'; table'; index_name_or_PRIMARY index_name'] ->
  Forall (fun f => free_of ":"%char f /\ free_of ","%char f) fields ->
  Forall (fun f => free_of ":"%char f /\ free_of ","%char f) fields' ->
  fields <> [] -> fields' <> [] ->
  cache_key db table fields index_name = cache_key db' table' fields' index_name' ->
  db = db' /\ table = table'
  /\ index_name_or_PRIMARY index_name = index_name_or_PRIMARY index_name'
  /\ fields = fields'.
Proof. apply cache_key_inj. Qed.

Lemma cache_key_injective_witness :
  "db" = "db" /\ "t" = "t"
  /\ index_name_or_PRIMARY None = index_name_or_PRIMARY (Some "PRIMARY")
  /\ ["id"; "name"] = ["id"; "name"].
Proof.
  apply cache_key_injective; try discriminate; try reflexivity;
    repeat constructor; vm_compute; intuition discriminate.
Defined.

(** Two lists of such fields in different orders never share a key. *)
Theorem cache_key_order (db table a b : string) (index_name : option string) :
  Forall (free_of ":"%char) [db; table; index_name_or_PRIMARY index_name] ->
  free_of ":"%char a /\ free_of ","%char a ->
  free_of ":"%char b /\ free_of ","%char b ->
  a <> b ->
  cache_key db table [a; b] index_name <> cache_key db table [b; a] index_name.
Proof.
  intros Hnames Ha Hb Hab Hkey.
  inversion Hnames as [|? ? Hfree1 Hn1]; inversion Hn1 as [|? ? Hfree2 Hn2];
    inversion Hn2 as [|? ? Hfree3 _]; subst.
  apply cache_key_inj in Hkey; try discriminate;
    [| repeat constructor; assumption | repeat constructor; tauto
     | repeat constructor; tauto ].
  destruct Hkey as [_ [_ [_ Heq]]]; inversion Heq; contradiction.
Qed.

Lemma cache_key_order_witness :
  cache_key "db" "t" ["a"; "b"] None <> cache_key "db" "t" ["b"; "a"] None.
Proof.
  apply cache_key_order; try discriminate;
    repeat constructor; vm_compute; intuition discriminate.
Defined.

End CacheKey.

(** ** Failures and lines of a connection *)

Section ConnectionMore.
Import Utils Py Sockets.

Lemma update_nth_other {B : Type} (f : B -> B) (l : list B) (n m : nat) :
  n <> m -> nth_error (update_nth n f l) m = nth_error l m.
Proof.
  revert n m; induction l as [|y l IH]; intros [|n] [|m] H; cbn; try reflexivity;
    try contradiction.
  apply IH; lia.
Qed.

Lemma update_nth_length {B : Type} (f : B -> B) (l : list B) (n : nat) :
  List.length (update_nth n f l) = List.length l.
Proof.
  revert n; induction l as [|y l IH]; intros [|n]; cbn; try reflexivity.
  now rewrite IH.
Qed.

Lemma update_nth_twice {B : Type} (f g : B -> B) (l : list B) (n : nat) :
  update_nth n g (update_nth n f l) = update_nth n (fun x => g (f x)) l.
Proof.
  revert n; induction l as [|y l IH]; intros [|n]; cbn; try reflexivity.
  now rewrite IH.
Qed.

Lemma update_nth_ext {B : Type} (f g : B -> B) (l : list B) (n : nat) (x : B) :
  nth_error l n = Some x -> f x = g x -> update_nth n f l = update_nth n g l.
Proof.
  revert n; induction l as [|y l IH]; intros [|n]; cbn; try discriminate.
  - intros [= ->] ->; reflexivity.
  - intros Hn Hfg; now rewrite (IH n Hn Hfg).
Qed.

Lemma exmsg_of_cases (e : socket_error) (msg : string) :
  (exists a, exmsg_of e = Ret a
             /\ die_raises e msg = ConnectionError (msg ++ ": " ++ str_of_arg a))
  \/ (exmsg_of e = Raise (IndexError "tuple index out of range")
      /\ die_raises e msg = IndexError "tuple index out of range").
Proof.
  unfold exmsg_of, die_raises; destruct (args e) as [|a1 [|a2 l]]; cbn.
  - now right.
  - destruct (truthy a1); [left; now exists a1 | now right].
  - left; now exists a2.
Qed.

Lemma die_spec {A} (st : State) (c : ref) (conn : Connection) (e : socket_error)
    (msg : string) (t : Z) (rest : list answer) :
  nth_error (connections (self st)) c = Some conn ->
  script st = Clock t :: rest ->
  @_die A c e msg st
  = (Raise (die_raises e msg), died st c t rest (close_events conn c ++ wire st)).
Proof.
  intros Hc Hscript; destruct st as [hs sc w]; cbn [self script wire] in *; subst sc.
  unfold _die, disconnect; unfold_run.
  rewrite (update_nth_nth _ _ _ _ Hc); cbn [socket retry_time].
  unfold close_events, died;
    cbn [self script wire connections index_map current_index_id index_cache
         last_connection_exception].
  assert (Hnew : update_nth c
              (fun x => mkConnection None (retry_time (mkConnection (socket x) (t + RETRY_INTERVAL))))
              (connections hs)
            = update_nth c (fun _ => mkConnection None (t + RETRY_INTERVAL)) (connections hs))
    by (apply (update_nth_ext _ _ _ _ conn Hc); reflexivity).
  assert (Hsame : socket conn = None ->
            update_nth c (fun x => mkConnection (socket x) (t + RETRY_INTERVAL)) (connections hs)
            = update_nth c (fun _ => mkConnection None (t + RETRY_INTERVAL)) (connections hs))
    by (intros Hs; apply (update_nth_ext _ _ _ _ conn Hc); now rewrite Hs).
  destruct (exmsg_of_cases e msg) as [[a [He ->]]|[He ->]]; rewrite He;
    destruct (socket conn) as [fd|] eqn:Hs; unfold_run;
    rewrite ?update_nth_twice, ?Hnew, ?(Hsame eq_refl); reflexivity.
Qed.

Lemma connect_fails (st : State) (c : ref) (conn : Connection)
    (e : socket_error) (t : Z) (rest : list answer) :
  nth_error (connections (self st)) c = Some conn ->
  socket conn = None -> script st = Connected (inl e) :: Clock t :: rest ->
  connect c st
  = (Raise (die_raises e "Connection error"),
     died st c t rest (EvConnect c :: wire st)).
Proof.
  intros Hc; destruct st as [hs sc w]; cbn [self script wire] in *.
  intros Hs ->; unfold connect; unfold_run; rewrite Hc, Hs; unfold_run.
  rewrite (die_spec (A := unit) (mkState hs (Clock t :: rest) (EvConnect c :: w))
             c conn e "Connection error" t rest Hc eq_refl).
  unfold close_events; rewrite Hs; reflexivity.
Qed.

Lemma send_fails (st : State) (c : ref) (conn : Connection)
    (e : socket_error) (t : Z) (rest : list answer) (data : string) :
  nth_error (connections (self st)) c = Some conn ->
  socket conn <> None -> script st = Sent (Some e) :: Clock t :: rest ->
  send c data st
  = (Raise (die_raises e "Send error"),
     died st c t rest (EvClose c :: EvSendall c data :: wire st)).
Proof.
  intros Hc; destruct st as [hs sc w]; cbn [self script wire] in *.
  intros Hs ->; unfold send; unfold_run; rewrite Hc.
  destruct (socket conn) as [fd|] eqn:Hfd; [|contradiction]; unfold_run.
  rewrite (die_spec (A := unit) (mkState hs (Clock t :: rest) (EvSendall c data :: w))
             c conn e "Send error" t rest Hc eq_refl).
  unfold close_events; rewrite Hfd; reflexivity.
Qed.

Lemma find_LF_cons (c : ascii) (s : string) :
  find_LF (String c s) =
    if Ascii.eqb c LF then Some 0%nat
    else match find_LF s with Some n => Some (S n) | None => None end.
Proof.
  unfold find_LF, str1; cbn [String.index prefix].
  destruct (ascii_dec LF c) as [<-|Hne].
  - destruct s; reflexivity.
  - destruct (Ascii.eqb c LF) eqn:E; [apply Ascii.eqb_eq in E; congruence|].
    reflexivity.
Qed.

Lemma find_LF_free (s : string) : free_of LF s -> find_LF s = None.
Proof.
  induction s as [|c s IH]; intros Hfree; [reflexivity|].
  rewrite find_LF_cons; destruct (Ascii.eqb c LF) eqn:E.
  - apply Ascii.eqb_eq in E; subst c; exfalso; apply Hfree; now left.
  - rewrite IH; [reflexivity | intros Hin; apply Hfree; now right].
Qed.

Lemma find_LF_first (a b : string) :
  free_of LF a -> find_LF (a ++ String LF b) = Some (String.length a).
Proof.
  induction a as [|c a IH]; intros Hfree; cbn [append String.length].
  - rewrite find_LF_cons, Ascii.eqb_refl; reflexivity.
  - rewrite find_LF_cons; destruct (Ascii.eqb c LF) eqn:E.
    + apply Ascii.eqb_eq in E; subst c; exfalso; apply Hfree; now left.
    + rewrite IH; [reflexivity | intros Hin; apply Hfree; now right].
Qed.

Lemma substring_prefix (a b : string) :
  substring 0 (String.length a) (a ++ b) = a.
Proof.
  induction a as [|c a IH]; cbn [append String.length substring].
  - destruct b; reflexivity.
  - now rewrite IH.
Qed.

Lemma free_of_app (c : ascii) (a b : string) :
  free_of c a -> free_of c b -> free_of c (a ++ b).
Proof.
  unfold free_of; rewrite chars_app; intros Ha Hb Hin.
  apply in_app_or in Hin as [Hin|Hin]; auto.
Qed.

(** The passes of [readline] over chunks that decode to texts without
    line feed: one [recv] each, and the texts go to the end of the buffer. *)
Lemma readline_loop_passes (c : ref) (conn : Connection) (hs : HandlerSocket)
    (chunks texts : list string) :
  nth_error (connections hs) c = Some conn ->
  socket conn <> None ->
  Forall2 passes chunks texts ->
  forall (buffer : string) (fuel : nat) (rest : list answer) (w : list event),
    free_of LF buffer ->
    readline_loop (List.length chunks + fuel) c buffer
      (mkState hs (map (fun d => Received (inr d)) chunks ++ rest)%list w)
    = readline_loop fuel c (buffer ++ concat_all texts)
        (mkState hs rest (repeat (EvRecv c) (List.length chunks) ++ w)%list).
Proof.
  intros Hc Hs Hchunks.
  destruct (socket conn) as [fd|] eqn:Hfd; [clear Hs | contradiction].
  induction Hchunks as [|d t chunks texts (Hd & Hdec & Hfree) Hall IH];
    intros buffer fuel rest w Hbuf.
  - cbn [List.length Nat.add map app repeat concat_all]; now rewrite append_nil_r.
  - cbn [List.length Nat.add readline_loop map app]; rewrite (find_LF_free buffer Hbuf).
    unfold_run; rewrite Hc, Hfd; unfold_run.
    assert (E : String.eqb d "" = false) by (now apply String.eqb_neq).
    rewrite E, Hdec, (IH (buffer ++ t) fuel rest (EvRecv c :: w))
      by (now apply free_of_app).
    cbn [concat_all]; rewrite append_assoc.
    do 2 f_equal.
    change (EvRecv c :: w) with ([EvRecv c] ++ w)%list.
    rewrite app_assoc, <- repeat_cons; reflexivity.
Qed.

Lemma readline_fuel (chunks : list string) (a : answer) (rest : list answer) :
  S (List.length (map (fun d => Received (inr d)) chunks ++ a :: rest)%list)
  = (List.length chunks + S (S (List.length rest)))%nat.
Proof. rewrite length_app, length_map; cbn [List.length]; lia. Qed.

Lemma recv_fails (st : State) (c : ref) (conn : Connection)
    (e : socket_error) (t : Z) (rest : list answer) (chunks texts : list string) :
  nth_error (connections (self st)) c = Some conn ->
  socket conn <> None ->
  Forall2 passes chunks texts ->
  script st
  = (map (fun d => Received (inr d)) chunks ++ Received (inl e) :: Clock t :: rest)%list ->
  readline c st
  = (Raise (die_raises e "Read error"),
     died st c t rest
       (EvClose c :: repeat (EvRecv c) (S (List.length chunks)) ++ wire st)%list).
Proof.
  intros Hc; destruct st as [hs sc w]; cbn [self script wire] in *.
  intros Hs Hchunks ->; unfold readline; unfold_run.
  assert (Hbuf : free_of LF (concat_all texts)).
  { clear - Hchunks; induction Hchunks as [|d t chunks texts (_ & _ & Hfree) _ IH];
      [intros [] | now apply free_of_app]. }
  rewrite readline_fuel, (readline_loop_passes c conn hs chunks texts Hc Hs Hchunks "")
    by (intros []).
  cbn [append readline_loop]; rewrite (find_LF_free _ Hbuf); unfold_run; rewrite Hc.
  destruct (socket conn) as [fd|] eqn:Hfd; [|contradiction]; unfold_run.
  rewrite (die_spec (A := string)
             (mkState hs (Clock t :: rest)
                (EvRecv c :: repeat (EvRecv c) (List.length chunks) ++ w)%list)
             c conn e "Read error" t rest Hc eq_refl).
  unfold close_events; rewrite Hfd; reflexivity.
Qed.

(** A socket error in [connect], in [sendall], or in a [recv] of [readline]
    after any number of chunks that were decoded, to characters up to
    U+00FF, and left the line unfinished, ends the same way: the
    connection is left without socket, its back-off is armed to
    the time of the failure plus [RETRY_INTERVAL], the socket it had is
    closed, the other connections and the caches are untouched, and the
    exception raised is the one [die_raises] gives: the [ConnectionError]
    that names the operation and carries the message of the socket error,
    or the [IndexError] of a socket error without message. *)
Theorem socket_error_arms_backoff (st : State) (c : ref) (conn : Connection)
    (e : socket_error) (t : Z) (rest : list answer) :
  nth_error (connections (self st)) c = Some conn ->
  (socket conn = None -> script st = Connected (inl e) :: Clock t :: rest ->
   connect c st
   = (Raise (die_raises e "Connection error"),
      died st c t rest (EvConnect c :: wire st)))
  /\ (forall data, socket conn <> None ->
      script st = Sent (Some e) :: Clock t :: rest ->
      send c data st
      = (Raise (die_raises e "Send error"),
         died st c t rest (EvClose c :: EvSendall c data :: wire st)))
  /\ (forall chunks texts, socket conn <> None ->
      Forall2 passes chunks texts ->
      script st
      = (map (fun d => Received (inr d)) chunks
         ++ Received (inl e) :: Clock t :: rest)%list ->
      readline c st
      = (Raise (die_raises e "Read error"),
         died st c t rest
           (EvClose c :: repeat (EvRecv c) (S (List.length chunks)) ++ wire st)%list)).
Proof.
  intros Hc; split; [|split].
  - intros Hs Hscript; exact (connect_fails st c conn e t rest Hc Hs Hscript).
  - intros data Hs Hscript; exact (send_fails st c conn e t rest data Hc Hs Hscript).
  - intros chunks texts Hs Hchunks Hscript.
    exact (recv_fails st c conn e t rest chunks texts Hc Hs Hchunks Hscript).
Qed.

(** [is_ready] on a connection whose back-off is armed. *)
Lemma is_ready_armed (st : State) (c : ref) (conn : Connection) (t : Z)
    (rest : list answer) :
  nth_error (connections (self st)) c = Some conn ->
  retry_time conn <> 0%Z ->
  script st = Clock t :: rest ->
  is_ready c st
  = (Ret (retry_time conn <=? t)%Z,
     if (retry_time conn <=? t)%Z
     then mkState
            (mkHandlerSocket
               (update_nth c (fun x => mkConnection (socket x) 0) (connections (self st)))
               (index_map (self st)) (current_index_id (self st))
               (index_cache (self st)) (last_connection_exception (self st)))
            rest (wire st)
     else mkState (self st) rest (wire st)).
Proof.
  intros Hc Hr Hscript; destruct st as [hs sc w]; cbn [self script wire] in *; subst sc.
  unfold is_ready; unfold_run; rewrite Hc.
  apply Z.eqb_neq in Hr; rewrite Hr; unfold_run.
  rewrite Z.gtb_ltb, Z.leb_antisym.
  destruct (t <? retry_time conn)%Z; reflexivity.
Qed.

(** After a failed [send] at time [t], [is_ready] at time [t'] answers
    whether the back-off has run out, that is [t + RETRY_INTERVAL <= t'];
    it clears the back-off exactly when it has. *)
Theorem backoff_window (st : State) (c : ref) (conn : Connection)
    (e : socket_error) (data : string) (t t' : Z) (rest : list answer) :
  nth_error (connections (self st)) c = Some conn ->
  socket conn <> None ->
  (t + RETRY_INTERVAL <> 0)%Z ->
  script st = Sent (Some e) :: Clock t :: Clock t' :: rest ->
  exists x st1 st2,
    send c data st = (Raise x, st1)
    /\ is_ready c st1 = (Ret (t + RETRY_INTERVAL <=? t')%Z, st2)
    /\ script st2 = rest
    /\ nth_error (connections (self st2)) c
       = Some (mkConnection None
                 (if (t + RETRY_INTERVAL <=? t')%Z then 0 else t + RETRY_INTERVAL)%Z).
Proof.
  intros Hc Hs Ht Hscript.
  pose proof (send_fails st c conn e t (Clock t' :: rest) data Hc Hs Hscript)
    as Hrun.
  set (st1 := died st c t (Clock t' :: rest) (EvClose c :: EvSendall c data :: wire st)) in *.
  assert (Hc1 : nth_error (connections (self st1)) c
                = Some (mkConnection None (t + RETRY_INTERVAL))).
  { unfold st1, died; cbn [self connections]; now rewrite (update_nth_nth _ _ _ _ Hc). }
  exists (die_raises e "Send error"), st1; eexists; split; [exact Hrun|].
  split; [exact (is_ready_armed st1 c _ t' rest Hc1 Ht eq_refl)|].
  cbn [retry_time].
  destruct (t + RETRY_INTERVAL <=? t')%Z; cbn [script self connections]; split;
    try reflexivity; try exact Hc1.
  rewrite (update_nth_nth _ _ _ _ Hc1); reflexivity.
Qed.

(** [disconnect] twice is [disconnect] once, and a disconnected connection
    has no socket and the [retry_time] it had. *)
Theorem disconnect_idempotent (c : ref) (st : State) :
  (disconnect c ;;; disconnect c) st = disconnect c st
  /\ (forall conn, nth_error (connections (self st)) c = Some conn ->
      exists st',
        disconnect c st = (Ret tt, st')
        /\ nth_error (connections (self st')) c
           = Some (mkConnection None (retry_time conn))).
Proof.
  destruct st as [hs sc w]; unfold disconnect; unfold_run.
  destruct (nth_error (connections hs) c) as [conn|] eqn:Hc.
  - destruct (socket conn) as [fd|] eqn:Hs; unfold_run.
    + rewrite (update_nth_nth _ _ _ _ Hc); cbn [socket]; split; [reflexivity|].
      intros conn' [= <-]; eexists; split; [reflexivity|].
      cbn [self connections]; rewrite (update_nth_nth _ _ _ _ Hc); reflexivity.
    + rewrite Hc, Hs; split; [reflexivity|].
      intros conn' [= <-]; eexists; split; [reflexivity|].
      cbn [self connections]; rewrite Hc; destruct conn; cbn in *; now subst.
  - split; [reflexivity | discriminate].
Qed.

(** After a [connect] that returned, the connection has a socket and
    another [connect] changes nothing and makes no socket call. *)
Theorem connect_twice (c : ref) (st st1 : State) :
  connect c st = (Ret tt, st1) ->
  connect c st1 = (Ret tt, st1)
  /\ exists conn fd,
       nth_error (connections (self st1)) c = Some conn /\ socket conn = Some fd.
Proof.
  destruct st as [hs sc w]; unfold connect; unfold_run.
  destruct (nth_error (connections hs) c) as [conn|] eqn:Hc; [|discriminate].
  destruct (socket conn) as [fd|] eqn:Hs; unfold_run.
  - intros [= <-]; cbn [self connections]; rewrite Hc, Hs; split; [reflexivity|].
    now exists conn, fd.
  - destruct sc as [|[ | |[e|fd]| | ] sc]; unfold_run; try discriminate.
    + intros H; exfalso; revert H.
      unfold _die; unfold_run.
      destruct sc as [|[ | | | | ] sc]; unfold_run; try discriminate.
      unfold disconnect; unfold_run; rewrite (update_nth_nth _ _ _ _ Hc); cbn [socket].
      rewrite Hs; unfold_run.
      destruct (exmsg_of e); discriminate.
    + intros [= <-]; cbn [self connections].
      rewrite (update_nth_nth _ _ _ _ Hc); cbn [socket]; split; [reflexivity|].
      eexists _, fd; split; reflexivity.
Qed.

(** A chunk of bytes below 0x80 decodes to itself. *)
Lemma utf8_loop_ascii (data text : string) (wide : bool) :
  Forall (fun b => (ord b < 0x80)%N) (chars data) ->
  utf8_loop wide text data = if wide then Stuck else Ret (text ++ data).
Proof.
  revert text; induction data as [|b data IH]; intros text Hall; cbn [utf8_loop].
  - now rewrite append_nil_r.
  - inversion Hall as [|? ? Hb Hrest]; subst.
    apply N.ltb_lt in Hb; rewrite Hb, (IH _ Hrest), append_assoc; reflexivity.
Qed.

Lemma bytes_decode_ascii (data : string) :
  Forall (fun b => (ord b < 0x80)%N) (chars data) -> bytes_decode data = Ret data.
Proof. intros H; unfold bytes_decode; now rewrite utf8_loop_ascii. Qed.

(** [readline] decodes the chunks received and puts the texts end to end
    until one holds a line feed, returns what comes before that first line
    feed and drops what comes after it; one [recv] is made per chunk and
    the pool is unchanged. The chunks are such as decode, to characters up
    to U+00FF. *)
Theorem readline_first_line (st : State) (c : ref) (conn : Connection)
    (chunks texts : list string) (data last tail : string) (rest : list answer) :
  nth_error (connections (self st)) c = Some conn ->
  socket conn <> None ->
  Forall2 passes chunks texts ->
  bytes_decode data = Ret (last ++ String LF tail) ->
  free_of LF last ->
  script st
  = (map (fun d => Received (inr d)) chunks ++ Received (inr data) :: rest)%list ->
  readline c st
  = (Ret (concat_all texts ++ last),
     mkState (self st) rest
       (repeat (EvRecv c) (S (List.length chunks)) ++ wire st)%list).
Proof.
  intros Hc Hs Hchunks Hdata Hlast Hscript.
  destruct st as [hs sc w]; cbn [self script wire] in *; subst sc.
  unfold readline; unfold_run.
  assert (Hbuf : free_of LF (concat_all texts)).
  { clear - Hchunks; induction Hchunks as [|d t chunks texts (_ & _ & Hfree) _ IH];
      [intros [] | now apply free_of_app]. }
  assert (E : String.eqb data "" = false).
  { destruct data; [|reflexivity]; cbn in Hdata; destruct last; discriminate. }
  rewrite readline_fuel, (readline_loop_passes c conn hs chunks texts Hc Hs Hchunks "")
    by (intros []).
  cbn [append readline_loop]; rewrite (find_LF_free _ Hbuf); unfold_run; rewrite Hc.
  destruct (socket conn) as [fd|] eqn:Hfd; [|contradiction]; unfold_run.
  rewrite E, Hdata; cbn [readline_loop].
  rewrite <- append_assoc, (find_LF_first (concat_all texts ++ last) tail)
    by (now apply free_of_app).
  unfold_run; rewrite substring_prefix; reflexivity.
Qed.

(** A chunk that is no UTF-8 ends [readline] with [UnicodeDecodeError]
    after its [recv]; the connection keeps its socket and no back-off is
    armed. *)
Lemma readline_undecodable (st : State) (c : ref) (conn : Connection)
    (chunks texts : list string) (data : string) (x : exn) (rest : list answer) :
  nth_error (connections (self st)) c = Some conn ->
  socket conn <> None ->
  Forall2 passes chunks texts ->
  data <> "" ->
  bytes_decode data = Raise x ->
  script st
  = (map (fun d => Received (inr d)) chunks ++ Received (inr data) :: rest)%list ->
  readline c st
  = (Raise x,
     mkState (self st) rest
       (repeat (EvRecv c) (S (List.length chunks)) ++ wire st)%list).
Proof.
  intros Hc Hs Hchunks Hne Hdata Hscript.
  destruct st as [hs sc w]; cbn [self script wire] in *; subst sc.
  unfold readline; unfold_run.
  assert (Hbuf : free_of LF (concat_all texts)).
  { clear - Hchunks; induction Hchunks as [|d t chunks texts (_ & _ & Hfree) _ IH];
      [intros [] | now apply free_of_app]. }
  assert (E : String.eqb data "" = false) by (now apply String.eqb_neq).
  rewrite readline_fuel, (readline_loop_passes c conn hs chunks texts Hc Hs Hchunks "")
    by (intros []).
  cbn [append readline_loop]; rewrite (find_LF_free _ Hbuf); unfold_run; rewrite Hc.
  destruct (socket conn) as [fd|] eqn:Hfd; [|contradiction]; unfold_run.
  rewrite E, Hdata; reflexivity.
Qed.

Lemma socket_error_arms_backoff_witness :
  readline 0
    (one_connected [Received (inr "0"); Received (inl Scenario.broken_pipe); Clock 100])
  = (Raise (ConnectionError "Read error: Broken pipe"),
     died (one_connected []) 0 100 [] [EvClose 0; EvRecv 0; EvRecv 0]).
Proof.
  destruct (socket_error_arms_backoff
              (one_connected
                 [Received (inr "0"); Received (inl Scenario.broken_pipe); Clock 100])
              0 (mkConnection (Some 7%nat) 0) Scenario.broken_pipe 100 [] eq_refl)
    as [_ [_ Hrecv]].
  apply (Hrecv ["0"] ["0"]); [discriminate | | reflexivity].
  constructor; [|constructor].
  split; [discriminate | split; [reflexivity | vm_compute; intuition discriminate]].
Defined.

Lemma backoff_window_witness :
  exists x st1 st2,
    send 0 "ping"
      (one_connected [Sent (Some Scenario.broken_pipe); Clock 100; Clock 129])
    = (Raise x, st1)
    /\ is_ready 0 st1 = (Ret false, st2)
    /\ script st2 = []
    /\ nth_error (connections (self st2)) 0 = Some (mkConnection None 130).
Proof.
  apply (backoff_window
           (one_connected [Sent (Some Scenario.broken_pipe); Clock 100; Clock 129])
           0 (mkConnection (Some 7%nat) 0) Scenario.broken_pipe "ping" 100 129 []);
    [reflexivity | discriminate | discriminate | reflexivity].
Defined.

Lemma connect_twice_witness :
  connect 0 (mkState (mkHandlerSocket [mkConnection (Some 7%nat) 0] [] 0 [] None) [] [EvConnect 0])
  = (Ret tt, mkState (mkHandlerSocket [mkConnection (Some 7%nat) 0] [] 0 [] None) [] [EvConnect 0])
  /\ exists conn fd,
       nth_error [mkConnection (Some 7%nat) 0] 0 = Some conn /\ socket conn = Some fd.
Proof.
  apply (connect_twice 0 (Scenario.fresh 1 [Connected (inr 7%nat)])); reflexivity.
Defined.

Lemma readline_first_line_witness :
  readline 0
    (one_connected
       [Received (inr (String (chr 0xC3) (str1 (chr 0xA9))));
        Received (inr (String TAB "1" ++ String LF "junk"))])
  = (Ret (String (chr 0xE9) (String TAB "1")),
     mkState (self (one_connected [])) [] [EvRecv 0; EvRecv 0]).
Proof.
  apply (readline_first_line
           (one_connected
              [Received (inr (String (chr 0xC3) (str1 (chr 0xA9))));
               Received (inr (String TAB "1" ++ String LF "junk"))])
           0 (mkConnection (Some 7%nat) 0)
           [String (chr 0xC3) (str1 (chr 0xA9))] [str1 (chr 0xE9)]
           (String TAB "1" ++ String LF "junk") (String TAB "1") "junk" []);
    try reflexivity; try discriminate.
  - constructor; [|constructor].
    split; [discriminate | split; [reflexivity | vm_compute; intuition discriminate]].
  - vm_compute; intuition discriminate.
Defined.

(** The sequence of [e] with acute accent cut between two chunks: the
    first chunk alone is no UTF-8. *)
Example readline_split_sequence :
  readline 0
    (one_connected
       [Received (inr (str1 (chr 0xC3)));
        Received (inr (String (chr 0xA9) (str1 LF)))])
  = (Raise (UnicodeDecodeError "utf-8"),
     mkState (self (one_connected []))
       [Received (inr (String (chr 0xA9) (str1 LF)))] [EvRecv 0]).
Proof. vm_compute; reflexivity. Qed.

End ConnectionMore.

(** ** The registry at work *)

Section RegistryRuns.
Import Utils Py Sockets.

(** A second [get_index_id] with the same arguments returns the same id and
    leaves the state as it is: nothing is sent, the index is opened once. *)
Theorem get_index_id_idempotent (db table : string) (fields : list string)
    (index_name : option string) (st st' : State) (i : Z) :
  get_index_id db table fields index_name st = (Ret i, st') ->
  get_index_id db table fields index_name st' = (Ret i, st').
Proof.
  intros Hrun; apply get_index_id_hit.
  exact (get_index_id_cached _ _ _ _ _ _ _ Hrun).
Qed.

Lemma get_index_id_idempotent_witness :
  get_index_id "db" "t" ["a"] None (one_index [("db:t:PRIMARY:a", 0%Z)] [])
  = (Ret 0%Z, one_index [("db:t:PRIMARY:a", 0%Z)] []).
Proof.
  apply (get_index_id_idempotent "db" "t" ["a"] None
           (one_index [("db:t:PRIMARY:a", 0%Z)] [])); reflexivity.
Defined.

Lemma purge_index_cached_raises_witness :
  exists st',
    purge_index (Some 0%Z) (one_index [("db:t:PRIMARY:a", 0%Z)] [])
    = (Raise (RuntimeError "dictionary changed size during iteration"), st').
Proof.
  apply (purge_index_cached_raises _ 0%Z 0%nat "db:t:PRIMARY:a");
    [reflexivity | left; reflexivity].
Defined.

Lemma purge_index_uncached_witness :
  exists m',
    Dict.delete Z.eqb [(0%Z, 0%nat)] 0%Z = Some m'
    /\ purge_index (Some 0%Z) (one_index [("db:t:PRIMARY:b", 5%Z)] [])
       = (Ret tt, put_map (one_index [("db:t:PRIMARY:b", 5%Z)] []) m').
Proof.
  apply (purge_index_uncached (one_index [("db:t:PRIMARY:b", 5%Z)] []) 0%Z 0%nat);
    [reflexivity | repeat constructor; discriminate].
Defined.


Lemma get_connection_bound_ready_witness :
  exists st',
    _get_connection (Some 0%Z) true (one_index [] [Shuffled [0%nat]]) = (Ret 0%nat, st')
    /\ wire st' = []
    /\ script st' = []
    /\ Dict.lookup Z.eqb (index_map (self st')) 0%Z = Some 0%nat.
Proof.
  apply (get_connection_bound_ready (one_index [] [Shuffled [0%nat]]) 0%Z true 0%nat
           (mkConnection (Some 7%nat) 0) 7%nat [0%nat] []); reflexivity.
Defined.

End RegistryRuns.

(** ** Invariants of the pool *)

Section PoolInvariants.
Import Utils Py Sockets.

Section Sub.
Context {B : Type}.

Lemma sub_refl (l : list B) : sub l l.
Proof. induction l; constructor; assumption. Qed.

Lemma sub_trans (l1 l2 l3 : list B) : sub l1 l2 -> sub l2 l3 -> sub l1 l3.
Proof.
  intros H12 H23; revert l1 H12; induction H23; intros l1 H12.
  - exact H12.
  - inversion H12; subst; constructor; auto.
  - constructor; auto.
Qed.

Lemma sub_In (l l0 : list B) (x : B) : sub l l0 -> In x l -> In x l0.
Proof.
  induction 1; intros Hin; [exact Hin | | right; auto].
  destruct Hin as [->|Hin]; [now left | right; auto].
Qed.

Lemma sub_Forall (P : B -> Prop) (l l0 : list B) :
  sub l l0 -> Forall P l0 -> Forall P l.
Proof.
  intros Hs Hall; rewrite Forall_forall in *; intros x Hin.
  apply Hall; eapply sub_In; eassumption.
Qed.

Lemma sub_map {C : Type} (f : B -> C) (l l0 : list B) :
  sub l l0 -> sub (map f l) (map f l0).
Proof. induction 1; cbn; constructor; assumption. Qed.

Lemma sub_NoDup (l l0 : list B) : sub l l0 -> NoDup l0 -> NoDup l.
Proof.
  induction 1; intros Hnd; [constructor | |].
  - inversion Hnd; subst; constructor; auto.
    intros Hin; eapply sub_In in Hin; eauto.
  - inversion Hnd; auto.
Qed.

End Sub.

Section DictFacts.
Context {K V : Type} (eqb : K -> K -> bool).

Lemma delete_sub (d d' : Dict.dict K V) (k : K) :
  Dict.delete eqb d k = Some d' -> sub d' d.
Proof.
  revert d'; induction d as [|[k' v] d IH]; intros d'; cbn; [discriminate|].
  destruct (eqb k' k).
  - intros [= <-]; constructor; apply sub_refl.
  - destruct (Dict.delete eqb d k) as [d1|]; [|discriminate].
    intros [= <-]; constructor; auto.
Qed.

Lemma lookup_sub_None (d d0 : Dict.dict K V) (k : K) :
  sub d d0 -> Dict.lookup eqb d0 k = None -> Dict.lookup eqb d k = None.
Proof.
  induction 1 as [|[k' v] l l0 Hs IH|[k' v] l l0 Hs IH]; cbn; auto;
    destruct (eqb k' k); try discriminate; auto.
Qed.

Lemma lookup_In (d : Dict.dict K V) (k : K) (v : V) :
  Dict.lookup eqb d k = Some v -> exists k', In (k', v) d /\ eqb k' k = true.
Proof.
  induction d as [|[k' v'] d IH]; cbn; [discriminate|].
  destruct (eqb k' k) eqn:E.
  - intros [= ->]; exists k'; split; [now left | exact E].
  - intros H; destruct (IH H) as [k1 [Hin Hk]]; exists k1; split; [now right | exact Hk].
Qed.

End DictFacts.

Section Keeps.
Context (I : State -> Prop).

Lemma keeps_ret {A} (a : A) (R : A -> Prop) : R a -> keeps I (ret a) R.
Proof. intros Ha st Hst; cbn; auto. Qed.

Lemma keeps_raise {A} (e : exn) (R : A -> Prop) : keeps I (raise e) R.
Proof. intros st Hst; exact Hst. Qed.

Lemma keeps_stuck {A} (R : A -> Prop) : keeps I stuck R.
Proof. intros st Hst; exact Hst. Qed.

Lemma keeps_bind {A B} (c : M State A) (k : A -> M State B)
    (R1 : A -> Prop) (R2 : B -> Prop) :
  keeps I c R1 -> (forall a, R1 a -> keeps I (k a) R2) -> keeps I (bind c k) R2.
Proof.
  intros Hc Hk st Hst; specialize (Hc st Hst); unfold bind.
  destruct (c st) as [[a|e|] st1]; try exact Hc.
  destruct Hc as [H1 Ha]; exact (Hk a Ha st1 H1).
Qed.

Lemma keeps_try {A} (body : M State A) (catches : exn -> bool)
    (handler : exn -> M State A) (R : A -> Prop) :
  keeps I body R -> (forall e, catches e = true -> keeps I (handler e) R) ->
  keeps I (try_except body catches handler) R.
Proof.
  intros Hb Hh st Hst; specialize (Hb st Hst); unfold try_except.
  destruct (body st) as [[a|e|] st1]; try exact Hb.
  destruct (catches e) eqn:E; [exact (Hh e E st1 Hb) | exact Hb].
Qed.

Lemma keeps_weaken {A} (c : M State A) (R R' : A -> Prop) :
  keeps I c R -> (forall a, R a -> R' a) -> keeps I c R'.
Proof.
  intros Hc Himp st Hst; specialize (Hc st Hst).
  destruct (c st) as [[a|e|] st1]; try exact Hc.
  destruct Hc; split; auto.
Qed.

Lemma keeps_get : keeps I get I.
Proof. intros st Hst; cbn; auto. Qed.

Lemma keeps_modify (f : State -> State) :
  (forall st, I st -> I (f st)) -> keeps I (modify f) (fun _ => True).
Proof. intros Hf st Hst; cbn; auto. Qed.

Lemma keeps_lift {A} (o : outcome A) : keeps I (lift o) (fun _ => True).
Proof. intros st Hst; unfold lift; destruct o; auto. Qed.

End Keeps.

Section FramedPrimitives.
Context (n : nat) (m : Z) (d0 : Dict.dict string Z).

Lemma framed_self (st st' : State) :
  self st' = self st -> framed n m d0 st -> framed n m d0 st'.
Proof. unfold framed; intros ->; auto. Qed.

Lemma keeps_next_answer : keeps (framed n m d0) next_answer (fun _ => True).
Proof.
  intros st Hst; unfold next_answer; destruct (script st); [exact Hst|].
  split; [|exact I]; revert Hst; apply framed_self; reflexivity.
Qed.

Lemma keeps_log (e : event) : keeps (framed n m d0) (log e) (fun _ => True).
Proof. apply keeps_modify; intros st; apply framed_self; reflexivity. Qed.

Lemma keeps_get_conn (c : ref) : keeps (framed n m d0) (get_conn c) (fun _ => True).
Proof.
  intros st Hst; unfold get_conn; destruct (nth_error _ c); auto.
Qed.

Lemma keeps_set_conn (c : ref) (f : Connection -> Connection) :
  keeps (framed n m d0) (set_conn c f) (fun _ => True).
Proof.
  apply keeps_modify; intros st (Hn & Hmap & Hm & Hsub).
  unfold framed; cbn [self connections index_map current_index_id index_cache].
  rewrite update_nth_length; auto.
Qed.

Lemma keeps_set_last (e : option exn) :
  keeps (framed n m d0) (set_last_connection_exception e) (fun _ => True).
Proof. apply keeps_modify; intros st H; exact H. Qed.

Lemma keeps_set_index_map (mp : Dict.dict Z ref) :
  Forall (fun kv => (snd kv < n)%nat) mp ->
  keeps (framed n m d0) (set_index_map mp) (fun _ => True).
Proof.
  intros Hmp; apply keeps_modify; intros st (Hn & Hmap & Hm & Hsub).
  unfold framed; cbn [self connections index_map current_index_id index_cache]; auto.
Qed.

Lemma keeps_set_index_cache (d : Dict.dict string Z) :
  sub d d0 -> keeps (framed n m d0) (set_index_cache d) (fun _ => True).
Proof.
  intros Hd; apply keeps_modify; intros st (Hn & Hmap & Hm & Hsub).
  unfold framed; cbn [self connections index_map current_index_id index_cache]; auto.
Qed.

End FramedPrimitives.

Create HintDb keeps.
#[local] Hint Resolve keeps_next_answer keeps_log keeps_get_conn keeps_set_conn
  keeps_set_last keeps_get : keeps.

(** One rule of the logic, chosen by the shape of the computation. *)
Ltac keeps_step :=
  lazymatch goal with
  | |- keeps _ (bind _ _) _ => eapply keeps_bind; [solve [eauto with keeps] | intros ? ?]
  | |- keeps _ (ret _) _ => apply keeps_ret; try exact I
  | |- keeps _ (raise _) _ => apply keeps_raise
  | |- keeps _ stuck _ => apply keeps_stuck
  | |- keeps _ (lift _) _ => eapply keeps_weaken; [apply keeps_lift | auto]
  | |- keeps _ (match ?x with _ => _ end) _ => destruct x
  | |- keeps _ _ _ => solve [eauto with keeps | eapply keeps_weaken; [eauto with keeps | auto]]
  end.

Section FramedConnection.
Context (n : nat) (m : Z) (d0 : Dict.dict string Z).

Lemma keeps_time_time : keeps (framed n m d0) time_time (fun _ => True).
Proof. unfold time_time; repeat keeps_step. Qed.

Lemma keeps_random_shuffle (l : list ref) :
  keeps (framed n m d0) (random_shuffle l) (fun order => same_elements l order = true).
Proof.
  unfold random_shuffle; keeps_step.
  destruct a; try apply keeps_stuck.
  destruct (same_elements l order) eqn:E; [apply keeps_ret; exact E | apply keeps_stuck].
Qed.

Lemma keeps_sock_connect (c : ref) : keeps (framed n m d0) (sock_connect c) (fun _ => True).
Proof. unfold sock_connect; repeat keeps_step. Qed.

Lemma keeps_sock_sendall (c : ref) (data : string) :
  keeps (framed n m d0) (sock_sendall c data) (fun _ => True).
Proof. unfold sock_sendall; repeat keeps_step. Qed.

Lemma keeps_sock_recv (c : ref) : keeps (framed n m d0) (sock_recv c) (fun _ => True).
Proof. unfold sock_recv; repeat keeps_step. Qed.

Hint Resolve keeps_time_time keeps_sock_connect keeps_sock_sendall keeps_sock_recv : keeps.

Lemma keeps_disconnect (c : ref) : keeps (framed n m d0) (disconnect c) (fun _ => True).
Proof. unfold disconnect, set_socket; repeat keeps_step. Qed.

Hint Resolve keeps_disconnect : keeps.

Lemma keeps_die {A} (c : ref) (e : socket_error) (msg : string) (R : A -> Prop) :
  keeps (framed n m d0) (_die c e msg) R.
Proof. unfold _die, set_retry_time; repeat keeps_step. Qed.

Lemma keeps_connect (c : ref) : keeps (framed n m d0) (connect c) (fun _ => True).
Proof.
  unfold connect, set_socket; repeat keeps_step; try apply keeps_die.
Qed.

Lemma keeps_is_ready (c : ref) : keeps (framed n m d0) (is_ready c) (fun _ => True).
Proof.
  unfold is_ready, set_retry_time; keeps_step.
  eapply keeps_bind with (R1 := fun _ => True).
  - destruct (retry_time a =? 0)%Z; repeat keeps_step.
  - intros b _; destruct b; repeat keeps_step.
Qed.

Lemma keeps_send (c : ref) (data : string) :
  keeps (framed n m d0) (send c data) (fun _ => True).
Proof. unfold send; repeat keeps_step; try apply keeps_die. Qed.

Lemma keeps_readline_loop (fuel : nat) (c : ref) (buffer : string) :
  keeps (framed n m d0) (readline_loop fuel c buffer) (fun _ => True).
Proof.
  revert buffer; induction fuel as [|fuel IH]; intros buffer; cbn [readline_loop];
    destruct (find_LF buffer); repeat keeps_step; try apply keeps_die; apply IH.
Qed.

Lemma keeps_readline (c : ref) : keeps (framed n m d0) (readline c) (fun _ => True).
Proof. unfold readline; keeps_step; apply keeps_readline_loop. Qed.

End FramedConnection.

Lemma same_elements_Permutation (l l' : list ref) :
  same_elements l l' = true -> Permutation l l'.
Proof.
  unfold same_elements; revert l'; induction l as [|x l IH]; intros l' H;
    apply andb_prop in H as [Hlen Hcount]; apply Nat.eqb_eq in Hlen.
  - destruct l'; [constructor | discriminate].
  - rewrite forallb_forall in Hcount.
    assert (Hx : In x l').
    { apply (count_occ_In Nat.eq_dec).
      pose proof (Hcount x (or_introl eq_refl)) as E; apply Nat.eqb_eq in E.
      rewrite <- E; cbn; destruct (Nat.eq_dec x x); [lia | contradiction]. }
    apply in_split in Hx as [a [b ->]].
    apply Permutation_cons_app, IH, andb_true_intro; split.
    + apply Nat.eqb_eq; rewrite length_app in *; cbn in *; lia.
    + apply forallb_forall; intros y Hy; apply Nat.eqb_eq.
      pose proof (Hcount y (or_intror Hy)) as E; apply Nat.eqb_eq in E.
      rewrite count_occ_app in *; cbn in E.
      destruct (Nat.eq_dec x y); lia.
Qed.

Lemma pop_Forall {B : Type} (P : B -> Prop) (l r : list B) (x : B) :
  pop l = Some (x, r) -> Forall P l -> P x /\ Forall P r.
Proof.
  unfold pop; intros Hpop Hall.
  apply Forall_rev in Hall; destruct (rev l) as [|y t]; [discriminate|].
  inversion Hpop; subst; inversion Hall; subst; split; [assumption|].
  now apply Forall_rev.
Qed.

Lemma store_Forall (Q : ref -> Prop) (mp : Dict.dict Z ref) (id : Z) (c : ref) :
  Forall (fun kv => Q (snd kv)) mp -> Q c ->
  Forall (fun kv => Q (snd kv)) (Dict.store Z.eqb mp id c).
Proof.
  intros Hall Hc; induction Hall as [|[k v] mp Hk Hall IH]; cbn.
  - constructor; [exact Hc | constructor].
  - destruct (Z.eqb k id); constructor; auto.
Qed.

Lemma lookup_Forall (Q : ref -> Prop) (mp : Dict.dict Z ref) (id : Z) (c : ref) :
  Forall (fun kv => Q (snd kv)) mp -> Dict.lookup Z.eqb mp id = Some c -> Q c.
Proof.
  intros Hall Hl; apply lookup_In in Hl as [k [Hin _]].
  rewrite Forall_forall in Hall; exact (Hall _ Hin).
Qed.

Section FramedPool.
Context (n : nat) (m : Z) (d0 : Dict.dict string Z).

Hint Resolve keeps_time_time keeps_sock_connect keeps_sock_sendall keeps_sock_recv
  keeps_disconnect keeps_connect keeps_is_ready keeps_send keeps_readline : keeps.

Lemma keeps_purge_loop (fuel di_used di_pos : nat) (index_id : option Z) :
  keeps (framed n m d0) (purge_loop fuel di_used di_pos index_id) (fun _ => True).
Proof.
  revert di_pos; induction fuel as [|fuel IH]; intros di_pos; cbn [purge_loop];
    [apply keeps_stuck|].
  keeps_step; rename a into st, H into Hst.
  destruct (negb _); [apply keeps_raise|].
  destruct (nth_error _ di_pos) as [[key value]|]; [|keeps_step].
  eapply keeps_bind with (R1 := fun _ => True); [|intros _ _; apply IH].
  destruct (match index_id with Some n0 => (value =? n0)%Z | None => false end);
    [|keeps_step].
  destruct (Dict.delete String.eqb _ key) as [d'|] eqn:Hd; [|apply keeps_raise].
  apply keeps_set_index_cache.
  destruct Hst as (_ & _ & _ & Hsub).
  eapply sub_trans; [eapply delete_sub; exact Hd | exact Hsub].
Qed.

Lemma keeps_purge_index (index_id : option Z) :
  keeps (framed n m d0) (purge_index index_id) (fun _ => True).
Proof.
  unfold purge_index; keeps_step; rename a into st, H into Hst.
  destruct index_id as [id|]; [|apply keeps_raise].
  destruct (Dict.delete Z.eqb _ id) as [mp|] eqn:Hd; [|apply keeps_raise].
  eapply keeps_bind with (R1 := fun _ => True); [|intros _ _; apply keeps_purge_loop].
  apply keeps_set_index_map.
  destruct Hst as (_ & Hmap & _ & _).
  eapply sub_Forall; [eapply delete_sub; exact Hd | exact Hmap].
Qed.

Lemma keeps_raise_exception {A} (R : A -> Prop) :
  keeps (framed n m d0) raise_exception R.
Proof.
  unfold raise_exception; keeps_step.
  destruct (last_connection_exception _); apply keeps_raise.
Qed.

Lemma keeps_raise_formatted {A} (mk : string -> exn) (text : string)
    (index_id : option Z) (R : A -> Prop) :
  keeps (framed n m d0) (raise_formatted mk text index_id) R.
Proof. unfold raise_formatted; destruct (format_id _ _); repeat keeps_step. Qed.

Lemma keeps_retry_loop (passes : nat) (index_id : option Z) (force_index : bool)
    (conn : ref) (connections : list ref) :
  (conn < n)%nat -> Forall (fun c => (c < n)%nat) connections ->
  keeps (framed n m d0) (retry_loop passes index_id force_index conn connections)
    (fun c => (c < n)%nat).
Proof.
  revert conn connections; induction passes as [|passes IH];
    intros conn connections Hconn Hall; cbn [retry_loop];
    [apply keeps_raise_exception|].
  eapply keeps_bind with (R1 := fun _ => True).
  - apply keeps_try.
    + repeat keeps_step.
    + intros e _; keeps_step.
      destruct force_index; [|keeps_step].
      eapply keeps_bind with (R1 := fun _ => True); [apply keeps_purge_index|].
      intros _ _; destruct connections;
        [apply keeps_raise_exception | apply keeps_raise_formatted].
  - intros fl _; destruct fl; [apply keeps_ret; exact Hconn|].
    destruct (pop connections) as [[conn' connections']|] eqn:Hpop.
    + destruct (pop_Forall _ _ _ _ Hpop Hall); now apply IH.
    + now apply IH.
Qed.

Lemma keeps_get_connection (index_id : option Z) (force_index : bool) :
  keeps (framed n m d0) (_get_connection index_id force_index)
    (fun c => (c < n)%nat).
Proof.
  unfold _get_connection; keeps_step; rename a into st, H into Hst.
  destruct Hst as (Hn & Hmap & _ & _).
  eapply keeps_bind; [apply keeps_random_shuffle|]; intros order Horder.
  apply same_elements_Permutation in Horder.
  assert (Hall : Forall (fun c => (c < n)%nat) order).
  { eapply Permutation_Forall; [exact Horder|].
    apply Forall_forall; intros c Hc; apply in_seq in Hc; lia. }
  eapply keeps_bind with
    (R1 := fun p : ref * list ref => (fst p < n)%nat /\ Forall (fun c => (c < n)%nat) (snd p)).
  - destruct (match index_id with Some n0 => _ | None => None end) as [conn|] eqn:Hb.
    + apply keeps_ret; split; [|exact Hall].
      destruct index_id as [id|]; [|discriminate].
      exact (lookup_Forall (fun c => (c < n)%nat) _ _ _ Hmap Hb).
    + destruct force_index; [apply keeps_raise_formatted|].
      destruct (pop order) as [[conn rest]|] eqn:Hpop; [|apply keeps_raise].
      apply keeps_ret; exact (pop_Forall _ _ _ _ Hpop Hall).
  - intros [conn connections] [Hconn Hconns]; cbn [fst snd] in *.
    eapply keeps_bind; [apply keeps_retry_loop; assumption|].
    intros c Hc.
    eapply keeps_bind with (R1 := fun _ => True); [|intros _ _; now apply keeps_ret].
    destruct index_id as [id|]; [|keeps_step].
    keeps_step; rename a into st1, H into Hst1.
    destruct Hst1 as (_ & Hmap1 & _ & _).
    apply keeps_set_index_map.
    exact (store_Forall (fun c => (c < n)%nat) _ id c Hmap1 Hc).
Qed.

Lemma keeps_call (index_id : option Z) (query : list string) (force_index : bool) :
  keeps (framed n m d0) (_call index_id query force_index) (fun _ => True).
Proof.
  unfold _call; eapply keeps_bind; [apply keeps_get_connection|]; intros conn _.
  apply keeps_try; [repeat keeps_step|].
  intros e _; eapply keeps_bind; [apply keeps_purge_index | intros; apply keeps_raise].
Qed.

Lemma keeps_find (index_id : Z) (operation : string) (columns : list (option string))
    (limit offset : Z) :
  keeps (framed n m d0) (find index_id operation columns limit offset) (fun _ => True).
Proof.
  unfold find; repeat (destruct (negb _); [apply keeps_raise|]); apply keeps_call.
Qed.

Lemma keeps_find_modify (index_id : Z) (operation : string)
    (columns : list (option string)) (modify_operation : string)
    (modify_columns : list (option string)) (limit offset : Z) :
  keeps (framed n m d0)
    (find_modify index_id operation columns modify_operation modify_columns limit offset)
    (fun _ => True).
Proof.
  unfold find_modify.
  destruct (_ || _); [apply keeps_raise|].
  destruct (negb _); [apply keeps_raise|].
  destruct (_ && _); [apply keeps_raise | apply keeps_call].
Qed.

Lemma keeps_insert (index_id : Z) (columns : list (option string)) :
  keeps (framed n m d0) (insert index_id columns) (fun _ => True).
Proof.
  unfold insert; destruct (negb _); [apply keeps_raise|].
  eapply keeps_bind; [apply keeps_call | intros; now apply keeps_ret].
Qed.

Lemma keeps_open_index (index_id : Z) (db table fields index_name : string) :
  keeps (framed n m d0) (_open_index index_id db table fields index_name) (fun _ => True).
Proof. apply keeps_call. Qed.

End FramedPool.

Section Registry.

Lemma keeps_snd {A} (I0 : State -> Prop) (c : M State A) (R : A -> Prop) (st : State) :
  keeps I0 c R -> I0 st -> I0 (snd (c st)).
Proof.
  intros Hk Hst; specialize (Hk st Hst).
  destruct (c st) as [[a|e|] st1]; cbn; tauto.
Qed.

Lemma kept_refl (st : State) : refs_ok st -> kept st st.
Proof. intros H; repeat split; [exact H | apply sub_refl]. Qed.

Lemma registry_kept (n : nat) (st st' : State) :
  registry_ok n st -> kept st st' -> registry_ok n st'.
Proof.
  intros (Hn & Hmap & Hlt & Hnd) (Hn' & Hmap' & Hm' & Hsub); subst n.
  repeat split; auto.
  - rewrite Hm'; eapply sub_Forall; eassumption.
  - eapply sub_NoDup; [apply sub_map; exact Hsub | exact Hnd].
Qed.

Lemma registry_refs (n : nat) (st : State) : registry_ok n st -> refs_ok st.
Proof. intros (Hn & Hmap & _); unfold refs_ok; now rewrite Hn. Qed.

Lemma store_absent (d : Dict.dict string Z) (k : string) (v : Z) :
  Dict.lookup String.eqb d k = None -> Dict.store String.eqb d k v = (d ++ [(k, v)])%list.
Proof.
  induction d as [|[k' v'] d IH]; cbn; [reflexivity|].
  destruct (String.eqb k' k); [discriminate|]; intros H; now rewrite IH.
Qed.

Lemma get_index_id_unfold (db table : string) (fields : list string)
    (index_name : option string) (st : State) :
  get_index_id db table fields index_name st =
    let key := cache_key db table fields index_name in
    match Dict.lookup String.eqb (index_cache (self st)) key with
    | Some i => (Ret i, st)
    | None =>
        match _open_index (current_index_id (self st)) db table (join "," fields)
                (index_name_or_PRIMARY index_name) st with
        | (Ret _, st1) =>
            (Ret (current_index_id (self st1)),
             mkState
               (mkHandlerSocket (connections (self st1)) (index_map (self st1))
                  (current_index_id (self st1) + 1)%Z
                  (Dict.store String.eqb (index_cache (self st1)) key
                     (current_index_id (self st1)))
                  (last_connection_exception (self st1)))
               (script st1) (wire st1))
        | (Raise e, st1) => (Raise e, st1)
        | (Stuck, st1) => (Stuck, st1)
        end
    end.
Proof.
  unfold get_index_id; unfold_run; cbv zeta.
  destruct (Dict.lookup String.eqb _ _); [reflexivity|].
  destruct (_open_index _ _ _ _ _ st) as [[rows|e|] st1]; reflexivity.
Qed.

(** What [get_index_id] does, case by case. *)
Lemma get_index_id_cases (db table : string) (fields : list string)
    (index_name : option string) (st : State) :
  refs_ok st ->
  let key := cache_key db table fields index_name in
  let r := get_index_id db table fields index_name st in
  match Dict.lookup String.eqb (index_cache (self st)) key with
  | Some i => r = (Ret i, st)
  | None =>
      match fst r with
      | Ret i =>
          exists st1,
            kept st st1
            /\ i = current_index_id (self st)
            /\ snd r = mkState
                 (mkHandlerSocket (connections (self st1)) (index_map (self st1))
                    (i + 1)%Z (index_cache (self st1) ++ [(key, i)])%list
                    (last_connection_exception (self st1)))
                 (script st1) (wire st1)
      | _ => kept st (snd r)
      end
  end.
Proof.
  intros Hrefs key r; subst r; rewrite get_index_id_unfold; fold key; cbv zeta.
  destruct (Dict.lookup String.eqb (index_cache (self st)) key) as [i|] eqn:Hl;
    [reflexivity|].
  pose proof (keeps_open_index _ _ _ (current_index_id (self st)) db table
                (join "," fields) (index_name_or_PRIMARY index_name) st
                (kept_refl st Hrefs)) as Hk.
  destruct (_open_index _ _ _ _ _ st) as [[rows|e|] st1]; cbn [fst snd]; try exact Hk.
  destruct Hk as [Hk _].
  assert (Hm : current_index_id (self st1) = current_index_id (self st))
    by (destruct Hk as (_ & _ & Hm & _); exact Hm).
  assert (Hnone : Dict.lookup String.eqb (index_cache (self st1)) key = None)
    by (destruct Hk as (_ & _ & _ & Hsub); exact (lookup_sub_None _ _ _ _ Hsub Hl)).
  exists st1; rewrite Hm, (store_absent _ _ _ Hnone).
  split; [exact Hk | split; reflexivity].
Qed.

Lemma registry_get_index_id (n : nat) (db table : string) (fields : list string)
    (index_name : option string) (st : State) :
  registry_ok n st ->
  registry_ok n (snd (get_index_id db table fields index_name st)).
Proof.
  intros Hreg.
  pose proof (get_index_id_cases db table fields index_name st (registry_refs _ _ Hreg))
    as H; cbv zeta in H.
  destruct (Dict.lookup String.eqb _ _) as [i|]; [rewrite H; exact Hreg|].
  destruct (get_index_id db table fields index_name st) as [[i|e|] st2];
    cbn [fst snd] in *; try (eapply registry_kept; eassumption).
  destruct H as (st1 & Hk & Hi & ->).
  pose proof (registry_kept _ _ _ Hreg Hk) as (Hn & Hmap & Hlt & Hnd).
  destruct Hk as (_ & _ & Hm & _).
  unfold registry_ok; cbn [self connections index_map index_cache current_index_id].
  repeat split; auto.
  - apply Forall_app; split.
    + eapply Forall_impl; [|exact Hlt]; cbn; intros kv Hkv. lia.
    + repeat constructor; cbn; lia.
  - rewrite map_app; cbn [map snd].
    apply NoDup_app; [exact Hnd | repeat constructor; intros [] | ].
    intros v Hv [<-|[]]; apply in_map_iff in Hv as [kv [Hkv Hin]].
    rewrite Forall_forall in Hlt; specialize (Hlt kv Hin); lia.
Qed.

End Registry.

Section Purges.

Lemma update_nth_same {B : Type} (f : B -> B) (l : list B) (c : nat) (x : B) :
  nth_error l c = Some x -> f x = x -> update_nth c f l = l.
Proof.
  revert c; induction l as [|y l IH]; intros [|c]; cbn; try discriminate.
  - intros [= ->] ->; reflexivity.
  - intros Hc Hf; now rewrite (IH c Hc Hf).
Qed.

Lemma disconnect_spec (st : State) (c : ref) (conn : Connection) :
  nth_error (connections (self st)) c = Some conn ->
  exists w,
    disconnect c st
    = (Ret tt,
       mkState
         (mkHandlerSocket (update_nth c closed (connections (self st)))
            (index_map (self st)) (current_index_id (self st))
            (index_cache (self st)) (last_connection_exception (self st)))
         (script st) w).
Proof.
  intros Hc; destruct st as [hs sc w]; cbn [self script wire] in *.
  unfold disconnect; unfold_run; rewrite Hc.
  destruct (socket conn) as [fd|] eqn:Hs; unfold_run.
  - eexists; reflexivity.
  - exists w; rewrite (update_nth_same closed _ _ _ Hc);
      [destruct hs; reflexivity | destruct conn; cbn in *; now subst].
Qed.

(** After [disconnect] of every connection of [l], the connections named in
    [l] are closed and the others are as they were. *)
Lemma for_each_disconnect (l : list ref) (st : State) :
  Forall (fun c => (c < List.length (connections (self st)))%nat) l ->
  exists conns w,
    for_each l disconnect st
    = (Ret tt,
       mkState
         (mkHandlerSocket conns (index_map (self st)) (current_index_id (self st))
            (index_cache (self st)) (last_connection_exception (self st)))
         (script st) w)
    /\ List.length conns = List.length (connections (self st))
    /\ forall c,
         nth_error conns c
         = if existsb (Nat.eqb c) l
           then option_map closed (nth_error (connections (self st)) c)
           else nth_error (connections (self st)) c.
Proof.
  revert st; induction l as [|c0 l IH]; intros st Hall.
  - exists (connections (self st)), (wire st); cbn.
    destruct st as [[] ? ?]; repeat split.
  - inversion Hall as [|? ? Hc0 Hrest]; subst.
    destruct (nth_error (connections (self st)) c0) as [conn0|] eqn:Hn0;
      [|apply nth_error_None in Hn0; lia].
    destruct (disconnect_spec st c0 conn0 Hn0) as [w1 Hd].
    cbn [for_each]; unfold bind; rewrite Hd.
    match goal with |- context [for_each l disconnect ?s] => set (st1 := s) end.
    destruct (IH st1) as (conns & w & Hrun & Hlen & Hnth).
    { unfold st1; cbn [self connections]; now rewrite update_nth_length. }
    unfold st1 in *; clear st1;
      cbn [self connections index_map current_index_id index_cache
           last_connection_exception script] in *.
    rewrite update_nth_length in Hlen.
    exists conns, w; rewrite Hrun.
    split; [reflexivity|]; split; [exact Hlen|].
    intros c; rewrite Hnth; cbn [existsb].
    destruct (Nat.eqb_spec c c0) as [->|Hne]; cbn [orb].
    + rewrite (update_nth_nth _ _ _ _ Hn0), Hn0.
      destruct (existsb (Nat.eqb c0) l); reflexivity.
    + rewrite update_nth_other by congruence; reflexivity.
Qed.

Lemma clear_caches_spec (st : State) :
  _clear_caches st
  = (Ret tt, mkState (cleared (connections (self st))) (script st) (wire st)).
Proof. destruct st as [hs sc w]; reflexivity. Qed.

End Purges.

Section RegistryTheorems.

Lemma purge_spec (st : State) :
  exists conns w,
    purge st = (Ret tt, mkState (cleared conns) (script st) w)
    /\ conns = map closed (connections (self st)).
Proof.
  destruct (for_each_disconnect (seq 0 (List.length (connections (self st)))) st)
    as (conns & w & Hrun & Hlen & Hnth).
  { apply Forall_forall; intros c Hc; apply in_seq in Hc; lia. }
  exists conns, w; split.
  - unfold purge; unfold_run.
    change (@for_each ref) with (@for_each nat) in Hrun; rewrite Hrun; unfold_run.
    rewrite clear_caches_spec; reflexivity.
  - apply nth_error_ext; intros c; rewrite Hnth, nth_error_map.
    destruct (existsb (Nat.eqb c) _) eqn:E; [reflexivity|].
    destruct (nth_error (connections (self st)) c) as [conn|] eqn:Hc; [|reflexivity].
    exfalso; apply Bool.not_true_iff_false in E; apply E.
    apply existsb_exists; exists c; split; [|apply Nat.eqb_refl].
    apply in_seq; split; [lia|]; cbn; apply nth_error_Some; congruence.
Qed.

Lemma purge_indexes_spec (st : State) :
  refs_ok st ->
  exists conns w,
    purge_indexes st = (Ret tt, mkState (cleared conns) (script st) w)
    /\ List.length conns = List.length (connections (self st))
    /\ forall c,
         nth_error conns c
         = if existsb (Nat.eqb c) (map snd (index_map (self st)))
           then option_map closed (nth_error (connections (self st)) c)
           else nth_error (connections (self st)) c.
Proof.
  intros Hrefs.
  destruct (for_each_disconnect (map snd (index_map (self st))) st)
    as (conns & w & Hrun & Hlen & Hnth).
  { apply Forall_map; exact Hrefs. }
  exists conns, w; split; [|split; assumption].
  unfold purge_indexes; unfold_run; rewrite Hrun; unfold_run.
  rewrite clear_caches_spec; reflexivity.
Qed.

Lemma registry_cleared (conns : list Connection) (sc : list answer) (w : list event) :
  registry_ok (List.length conns) (mkState (cleared conns) sc w).
Proof. repeat split; constructor. Qed.

Lemma NoDup_snd_key (d : Dict.dict string Z) (a b : string) (v : Z) :
  NoDup (map snd d) -> In (a, v) d -> In (b, v) d -> a = b.
Proof.
  induction d as [|[k x] d IH]; intros Hnd Ha Hb; [destruct Ha|].
  cbn in Hnd; inversion Hnd as [|? ? Hnot Hnd']; subst.
  destruct Ha as [Ha|Ha], Hb as [Hb|Hb].
  - congruence.
  - inversion Ha; subst; exfalso; apply Hnot.
    apply in_map_iff; exists (b, v); auto.
  - inversion Hb; subst; exfalso; apply Hnot.
    apply in_map_iff; exists (a, v); auto.
  - auto.
Qed.

Lemma lookup_In_key (d : Dict.dict string Z) (k : string) (v : Z) :
  Dict.lookup String.eqb d k = Some v -> In (k, v) d.
Proof.
  intros H; apply lookup_In in H as [k' [Hin Hk]].
  apply String.eqb_eq in Hk; now subst.
Qed.

(** [find], [find_modify], [insert] and [purge_index], whatever their
    outcome, leave the pool with as many connections, the same id counter,
    a key cache that has at most lost entries, and index ids bound to
    connections of the pool. *)
Theorem requests_frame (st : State) :
  refs_ok st ->
  (forall index_id operation columns limit offset,
      kept st (snd (find index_id operation columns limit offset st)))
  /\ (forall index_id operation columns modify_operation modify_columns limit offset,
         kept st (snd (find_modify index_id operation columns modify_operation
                         modify_columns limit offset st)))
  /\ (forall index_id columns, kept st (snd (insert index_id columns st)))
  /\ (forall index_id, kept st (snd (purge_index index_id st))).
Proof.
  intros Hrefs; pose proof (kept_refl st Hrefs) as Hk.
  split; [|split; [|split]]; intros.
  - exact (keeps_snd _ _ _ _ (keeps_find _ _ _ _ _ _ _ _) Hk).
  - exact (keeps_snd _ _ _ _ (keeps_find_modify _ _ _ _ _ _ _ _ _ _) Hk).
  - exact (keeps_snd _ _ _ _ (keeps_insert _ _ _ _ _) Hk).
  - exact (keeps_snd _ _ _ _ (keeps_purge_index _ _ _ _) Hk).
Qed.

(** A new pool satisfies [registry_ok], and every operation of the pool
    keeps it, whatever its outcome: the pool keeps its size, index ids are
    bound to connections of the pool, and the cached ids are below the
    counter and different from one another. *)
Theorem registry_invariant (n : nat) :
  (forall answers, registry_ok n (Scenario.fresh n answers))
  /\ forall st, registry_ok n st ->
       (forall db table fields index_name,
           registry_ok n (snd (get_index_id db table fields index_name st)))
       /\ (forall index_id operation columns limit offset,
              registry_ok n (snd (find index_id operation columns limit offset st)))
       /\ (forall index_id operation columns modify_operation modify_columns limit offset,
              registry_ok n (snd (find_modify index_id operation columns modify_operation
                                    modify_columns limit offset st)))
       /\ (forall index_id columns, registry_ok n (snd (insert index_id columns st)))
       /\ (forall index_id, registry_ok n (snd (purge_index index_id st)))
       /\ registry_ok n (snd (purge_indexes st))
       /\ registry_ok n (snd (purge st)).
Proof.
  split.
  - intros answers; unfold Scenario.fresh, new_pool, registry_ok; cbn.
    rewrite repeat_length; repeat split; constructor.
  - intros st Hreg; pose proof (registry_refs _ _ Hreg) as Hrefs.
    pose proof (kept_refl st Hrefs) as Hk.
    split; [intros; now apply registry_get_index_id|].
    split; [intros; eapply registry_kept; [exact Hreg|];
            exact (keeps_snd _ _ _ _ (keeps_find _ _ _ _ _ _ _ _) Hk)|].
    split; [intros; eapply registry_kept; [exact Hreg|];
            exact (keeps_snd _ _ _ _ (keeps_find_modify _ _ _ _ _ _ _ _ _ _) Hk)|].
    split; [intros; eapply registry_kept; [exact Hreg|];
            exact (keeps_snd _ _ _ _ (keeps_insert _ _ _ _ _) Hk)|].
    split; [intros; eapply registry_kept; [exact Hreg|];
            exact (keeps_snd _ _ _ _ (keeps_purge_index _ _ _ _) Hk)|].
    destruct Hreg as (Hn & _).
    split.
    + destruct (purge_indexes_spec st Hrefs) as (conns & w & -> & Hlen & _).
      cbn [snd]; rewrite <- Hn, <- Hlen; apply registry_cleared.
    + destruct (purge_spec st) as (conns & w & -> & ->).
      cbn [snd]; rewrite <- Hn, <- (length_map closed); apply registry_cleared.
Qed.

(** A [get_index_id] that raises has not advanced the id counter, has
    added no key to the cache, has not cached the key it was called for,
    and has not changed the size of the pool. *)
Theorem get_index_id_failure (db table : string) (fields : list string)
    (index_name : option string) (st st' : State) (e : exn) :
  refs_ok st ->
  get_index_id db table fields index_name st = (Raise e, st') ->
  current_index_id (self st') = current_index_id (self st)
  /\ sub (index_cache (self st')) (index_cache (self st))
  /\ Dict.lookup String.eqb (index_cache (self st'))
       (cache_key db table fields index_name) = None
  /\ List.length (connections (self st')) = List.length (connections (self st)).
Proof.
  intros Hrefs Hrun.
  pose proof (get_index_id_cases db table fields index_name st Hrefs) as H.
  cbv zeta in H; rewrite Hrun in H; cbn [fst snd] in H.
  destruct (Dict.lookup String.eqb (index_cache (self st)) _) eqn:Hl; [discriminate|].
  destruct H as (Hn & _ & Hm & Hsub); repeat split; auto.
  exact (lookup_sub_None _ _ _ _ Hsub Hl).
Qed.

(** A [get_index_id] that returns for a key the cache did not hold returns
    the value the counter had, advances the counter by one, and adds the
    key with that id at the end of the cache, which otherwise has at most
    lost entries. *)
Theorem get_index_id_fresh (db table : string) (fields : list string)
    (index_name : option string) (st st' : State) (i : Z) :
  refs_ok st ->
  Dict.lookup String.eqb (index_cache (self st))
    (cache_key db table fields index_name) = None ->
  get_index_id db table fields index_name st = (Ret i, st') ->
  i = current_index_id (self st)
  /\ current_index_id (self st') = (i + 1)%Z
  /\ exists d,
       sub d (index_cache (self st))
       /\ index_cache (self st') = (d ++ [(cache_key db table fields index_name, i)])%list.
Proof.
  intros Hrefs Hl Hrun.
  pose proof (get_index_id_cases db table fields index_name st Hrefs) as H.
  cbv zeta in H; rewrite Hrun, Hl in H; cbn [fst snd] in H.
  destruct H as (st1 & (_ & _ & _ & Hsub) & Hi & ->).
  cbn [self current_index_id index_cache]; repeat split; auto.
  exists (index_cache (self st1)); split; [exact Hsub | reflexivity].
Qed.

(** Two successive [get_index_id] with different cache keys return
    different ids. *)
Theorem distinct_keys_distinct_ids (n : nat) (db table : string) (fields : list string)
    (index_name : option string) (db' table' : string) (fields' : list string)
    (index_name' : option string) (st st1 st2 : State) (i1 i2 : Z) :
  registry_ok n st ->
  cache_key db table fields index_name <> cache_key db' table' fields' index_name' ->
  get_index_id db table fields index_name st = (Ret i1, st1) ->
  get_index_id db' table' fields' index_name' st1 = (Ret i2, st2) ->
  i1 <> i2.
Proof.
  intros Hreg Hkeys Hrun1 Hrun2.
  pose proof (registry_get_index_id n db table fields index_name st Hreg) as Hreg1.
  rewrite Hrun1 in Hreg1; cbn [snd] in Hreg1.
  pose proof (lookup_In_key _ _ _ (get_index_id_cached _ _ _ _ _ _ _ Hrun1)) as Hin1.
  pose proof (get_index_id_cases db' table' fields' index_name' st1
                (registry_refs _ _ Hreg1)) as H.
  cbv zeta in H; rewrite Hrun2 in H; cbn [fst snd] in H.
  destruct Hreg1 as (_ & _ & Hlt & Hnd).
  destruct (Dict.lookup String.eqb (index_cache (self st1)) _) as [j|] eqn:Hl.
  - inversion H; subst j st2; intros ->.
    apply Hkeys; exact (NoDup_snd_key _ _ _ _ Hnd Hin1 (lookup_In_key _ _ _ Hl)).
  - destruct H as (_ & _ & -> & _).
    rewrite Forall_forall in Hlt; specialize (Hlt _ Hin1); cbn in Hlt; lia.
Qed.

(** [purge] always returns; afterwards every connection is without socket,
    keeps its back-off, both caches are empty, the counter is 0 and no
    exception is remembered; nothing is read from the environment. *)
Theorem purge_resets (st : State) :
  exists w,
    purge st
    = (Ret tt, mkState (cleared (map closed (connections (self st)))) (script st) w).
Proof. destruct (purge_spec st) as (conns & w & Hrun & ->); now exists w. Qed.

(** The first index opened after [purge] gets the id 0. *)
Theorem purge_then_open (db table : string) (fields : list string)
    (index_name : option string) (st st' : State) (i : Z) :
  get_index_id db table fields index_name (snd (purge st)) = (Ret i, st') ->
  i = 0%Z /\ current_index_id (self st') = 1%Z
  /\ index_cache (self st') = [(cache_key db table fields index_name, 0%Z)].
Proof.
  destruct (purge_spec st) as (conns & w & -> & _); cbn [snd]; intros Hrun.
  pose proof (get_index_id_cases db table fields index_name
                (mkState (cleared conns) (script st) w) (Forall_nil _)) as H.
  cbv zeta in H; rewrite Hrun in H; cbn [fst snd self index_cache cleared Dict.lookup] in H.
  destruct H as (st1 & (_ & _ & _ & Hsub) & -> & ->).
  inversion Hsub; subst; cbn [self index_cache cleared] in *.
  repeat split.
Qed.

(** When the index ids are bound to connections of the pool,
    [purge_indexes] returns; afterwards the connections some index was
    bound to are without socket, the others are as they were, both caches
    are empty and the counter is 0. *)
Theorem purge_indexes_resets (st : State) :
  refs_ok st ->
  exists conns w,
    purge_indexes st = (Ret tt, mkState (cleared conns) (script st) w)
    /\ List.length conns = List.length (connections (self st))
    /\ forall c,
         nth_error conns c
         = if existsb (Nat.eqb c) (map snd (index_map (self st)))
           then option_map closed (nth_error (connections (self st)) c)
           else nth_error (connections (self st)) c.
Proof. exact (purge_indexes_spec st). Qed.

(** Two runs of [find] on the index of id 0. The server answers a row;
    [sendall] fails, and the index leaves the map and the cache on the way
    to the exception. *)
Lemma requests_frame_witness :
  let answered :=
    one_index [("db:t:PRIMARY:a", 0%Z)]
      [Shuffled [0%nat]; Sent None; Received (Scenario.line ["0"; "1"; "x"])] in
  let failing :=
    one_index [("db:t:PRIMARY:a", 0%Z)]
      [Shuffled [0%nat]; Sent (Some Scenario.broken_pipe); Clock 100] in
  (fst (find 0 "=" [Some "1"] 1 0 answered) = Ret [[Some "x"]]
   /\ wire (snd (find 0 "=" [Some "1"] 1 0 answered))
      = [EvRecv 0;
         EvSendall 0 (join (str1 TAB) ["0"; "="; "1"; "1"; "1"; "0"] ++ str1 LF)]
   /\ kept answered (snd (find 0 "=" [Some "1"] 1 0 answered)))
  /\ (fst (find 0 "=" [Some "1"] 1 0 failing)
      = Raise (RuntimeError "dictionary changed size during iteration")
      /\ index_cache (self (snd (find 0 "=" [Some "1"] 1 0 failing))) = []
      /\ kept failing (snd (find 0 "=" [Some "1"] 1 0 failing))).
Proof.
  intros answered failing; split.
  - split; [vm_compute; reflexivity|]; split; [vm_compute; reflexivity|].
    apply (requests_frame answered); repeat constructor.
  - split; [vm_compute; reflexivity|]; split; [vm_compute; reflexivity|].
    apply (requests_frame failing); repeat constructor.
Defined.

Lemma get_index_id_failure_witness :
  let st := Scenario.fresh 1 Scenario.refused_open in
  let st' := snd (get_index_id "db" "t" ["a"] None st) in
  current_index_id (self st') = current_index_id (self st)
  /\ sub (index_cache (self st')) (index_cache (self st))
  /\ Dict.lookup String.eqb (index_cache (self st')) (cache_key "db" "t" ["a"] None) = None
  /\ List.length (connections (self st')) = List.length (connections (self st)).
Proof.
  apply (get_index_id_failure "db" "t" ["a"] None
           (Scenario.fresh 1 Scenario.refused_open) _
           (OperationalError "HandlerSocket returned an error code: open_table"));
    [constructor | vm_compute; reflexivity].
Defined.

Lemma get_index_id_fresh_witness :
  let st := Scenario.fresh 1 Scenario.accepted_open in
  let st' := snd (get_index_id "db" "t" ["a"] None st) in
  0%Z = current_index_id (self st)
  /\ current_index_id (self st') = (0 + 1)%Z
  /\ exists d,
       sub d (index_cache (self st))
       /\ index_cache (self st') = (d ++ [(cache_key "db" "t" ["a"] None, 0%Z)])%list.
Proof.
  apply (get_index_id_fresh "db" "t" ["a"] None
           (Scenario.fresh 1 Scenario.accepted_open));
    [constructor | reflexivity | vm_compute; reflexivity].
Defined.

Lemma distinct_keys_distinct_ids_witness : (0 <> 1)%Z.
Proof.
  apply (distinct_keys_distinct_ids 2 "db" "t" ["a"] None "db" "t" ["b"] None
           (Scenario.fresh 2 Scenario.two_indexes)
           (snd (get_index_id "db" "t" ["a"] None (Scenario.fresh 2 Scenario.two_indexes)))
           (snd (Scenario.open_two (Scenario.fresh 2 Scenario.two_indexes)))).
  - repeat split; constructor.
  - vm_compute; discriminate.
  - vm_compute; reflexivity.
  - vm_compute; reflexivity.
Defined.

Lemma purge_then_open_witness :
  let st := one_index [("db:t:PRIMARY:a", 0%Z); ("db:t:PRIMARY:b", 1%Z)]
              Scenario.accepted_open in
  let st' := snd (get_index_id "db" "t" ["c"] None (snd (purge st))) in
  0%Z = 0%Z /\ current_index_id (self st') = 1%Z
  /\ index_cache (self st') = [(cache_key "db" "t" ["c"] None, 0%Z)].
Proof.
  apply (purge_then_open "db" "t" ["c"] None
           (one_index [("db:t:PRIMARY:a", 0%Z); ("db:t:PRIMARY:b", 1%Z)]
              Scenario.accepted_open)).
  vm_compute; reflexivity.
Defined.

Lemma purge_indexes_resets_witness :
  exists conns w,
    purge_indexes (one_index [("db:t:PRIMARY:a", 0%Z)] [])
    = (Ret tt, mkState (cleared conns) [] w)
    /\ List.length conns = 1%nat
    /\ forall c,
         nth_error conns c
         = if existsb (Nat.eqb c) [0%nat]
           then option_map closed (nth_error [mkConnection (Some 7%nat) 0] c)
           else nth_error [mkConnection (Some 7%nat) 0] c.
Proof.
  apply (purge_indexes_resets (one_index [("db:t:PRIMARY:a", 0%Z)] [])).
  repeat constructor.
Defined.

End RegistryTheorems.

End PoolInvariants.

(** ** Numbers, requests and responses on the wire *)

Section WireFacts.
Import Utils Py Sockets.

Lemma digits_uint (d : Decimal.uint) (acc : Z) (b : bool) :
  d <> Decimal.Nil \/ b = true ->
  digits acc b (NilEmpty.string_of_uint d) = Some (zacc d acc).
Proof.
  revert acc b; induction d; intros acc b H; cbn [NilEmpty.string_of_uint zacc];
    try (cbn [digits]; change (digit_of _) with (Some 0%Z) || change (digit_of _) with (Some 1%Z)
         || change (digit_of _) with (Some 2%Z) || change (digit_of _) with (Some 3%Z)
         || change (digit_of _) with (Some 4%Z) || change (digit_of _) with (Some 5%Z)
         || change (digit_of _) with (Some 6%Z) || change (digit_of _) with (Some 7%Z)
         || change (digit_of _) with (Some 8%Z) || change (digit_of _) with (Some 9%Z);
         apply IHd; now right).
  destruct H as [H| ->]; [contradiction | reflexivity].
Qed.

Lemma zacc_pos (d : Decimal.uint) (p : positive) :
  zacc d (Zpos p) = Zpos (Pos.of_uint_acc d p).
Proof.
  revert p; induction d; intros p; cbn [zacc Pos.of_uint_acc]; try reflexivity;
    match goal with
    | |- zacc _ ?a = Zpos (Pos.of_uint_acc _ ?q) =>
        replace a with (Zpos q) by lia; apply IHd
    end.
Qed.

Lemma zacc_0 (d : Decimal.uint) : zacc d 0 = Z.of_N (Pos.of_uint d).
Proof.
  induction d; cbn [zacc Pos.of_uint]; try reflexivity; try exact IHd;
    match goal with
    | |- zacc _ ?a = Z.of_N (Npos (Pos.of_uint_acc _ ?q)) =>
        change a with (Zpos q); apply zacc_pos
    end.
Qed.

Lemma string_of_uint_numeric (d : Decimal.uint) :
  Forall (fun c => exists k, digit_of c = Some k) (chars (NilEmpty.string_of_uint d)).
Proof.
  induction d; cbn [NilEmpty.string_of_uint chars list_ascii_of_string];
    constructor; try exact IHd; eexists; reflexivity.
Qed.

Lemma digit_not_space (c : ascii) (k : Z) : digit_of c = Some k -> is_space c = false.
Proof.
  destruct c as [[] [] [] [] [] [] [] []]; vm_compute; intros H;
    try discriminate H; reflexivity.
Qed.

Lemma rev_string_acc (s acc : string) : rev_string acc s = rev_string "" s ++ acc.
Proof.
  revert acc; induction s as [|c s IH]; intros acc; cbn [rev_string]; [reflexivity|].
  rewrite (IH (String c acc)), (IH (String c "")), append_assoc; reflexivity.
Qed.

Lemma rev_string_app (a b : string) :
  rev_string "" (a ++ b) = rev_string "" b ++ rev_string "" a.
Proof.
  induction a as [|c a IH]; cbn [append rev_string]; [now rewrite append_nil_r|].
  rewrite rev_string_acc, IH, (rev_string_acc a (String c "")), append_assoc.
  reflexivity.
Qed.

Lemma rev_string_involutive (s : string) : rev_string "" (rev_string "" s) = s.
Proof.
  induction s as [|c s IH]; cbn [rev_string]; [reflexivity|].
  rewrite (rev_string_acc s (String c "")), rev_string_app, IH; reflexivity.
Qed.

Lemma chars_rev_string (s : string) : chars (rev_string "" s) = List.rev (chars s).
Proof.
  induction s as [|c s IH]; cbn [rev_string]; [reflexivity|].
  rewrite (rev_string_acc s (String c "")), chars_app, IH; reflexivity.
Qed.

Lemma lstrip_plain (s : string) :
  Forall (fun c => is_space c = false) (chars s) -> lstrip s = s.
Proof.
  destruct s as [|c s]; [reflexivity|]; intros H; inversion H as [|? ? Hc _]; subst.
  cbn [lstrip]; now rewrite Hc.
Qed.

Lemma strip_plain (s : string) :
  Forall (fun c => is_space c = false) (chars s) -> strip s = s.
Proof.
  intros H; unfold strip; rewrite (lstrip_plain s H), lstrip_plain.
  - apply rev_string_involutive.
  - rewrite chars_rev_string; now apply Forall_rev.
Qed.

Lemma uint_plain (d : Decimal.uint) :
  Forall (fun c => is_space c = false) (chars (NilEmpty.string_of_uint d)).
Proof.
  eapply Forall_impl; [|apply string_of_uint_numeric].
  intros c [k Hk]; exact (digit_not_space c k Hk).
Qed.

Lemma count_digits_uint (d : Decimal.uint) :
  count_digits (NilEmpty.string_of_uint d) = Decimal.nb_digits d.
Proof.
  induction d; cbn [NilEmpty.string_of_uint count_digits Decimal.nb_digits];
    [reflexivity | ..];
    (change (digit_of _) with (Some 0%Z) || change (digit_of _) with (Some 1%Z)
     || change (digit_of _) with (Some 2%Z) || change (digit_of _) with (Some 3%Z)
     || change (digit_of _) with (Some 4%Z) || change (digit_of _) with (Some 5%Z)
     || change (digit_of _) with (Some 6%Z) || change (digit_of _) with (Some 7%Z)
     || change (digit_of _) with (Some 8%Z) || change (digit_of _) with (Some 9%Z));
    now rewrite IHd.
Qed.

Lemma literal_uint (d : Decimal.uint) :
  (Decimal.nb_digits d <= INT_MAX_STR_DIGITS)%nat ->
  literal (NilEmpty.string_of_uint d) = digits 0 false (NilEmpty.string_of_uint d).
Proof.
  intros H; unfold literal; rewrite count_digits_uint.
  apply Nat.ltb_ge in H; now rewrite H.
Qed.

Lemma int_uint (d : Decimal.uint) :
  d <> Decimal.Nil ->
  (Decimal.nb_digits d <= INT_MAX_STR_DIGITS)%nat ->
  int (NilEmpty.string_of_uint d) = Some (Z.of_N (Pos.of_uint d))
  /\ int (String "-" (NilEmpty.string_of_uint d)) = Some (- Z.of_N (Pos.of_uint d))%Z.
Proof.
  intros Hd Hnb; unfold int.
  rewrite (strip_plain _ (uint_plain d)), strip_plain
    by (constructor; [reflexivity | apply uint_plain]).
  pose proof (literal_uint d Hnb) as Hlit.
  rewrite (digits_uint d 0 false (or_introl Hd)), zacc_0 in Hlit.
  split.
  - rewrite <- Hlit; destruct d; try contradiction; reflexivity.
  - cbv beta iota; rewrite Hlit; reflexivity.
Qed.

(** The digits read after [acc] shift it by their number. *)
Lemma zacc_lower (d : Decimal.uint) (acc : Z) :
  (0 <= acc)%Z -> (acc * 10 ^ Z.of_nat (Decimal.nb_digits d) <= zacc d acc)%Z.
Proof.
  revert acc; induction d; intros acc Hacc; cbn [zacc Decimal.nb_digits];
    [rewrite Z.pow_0_r; lia | ..];
    rewrite Nat2Z.inj_succ, Z.pow_succ_r by lia;
    (etransitivity; [|apply IHd; lia]);
    pose proof (Z.pow_nonneg 10 (Z.of_nat (Decimal.nb_digits d))); nia.
Qed.

(** A number without leading zero is at least the power of ten of its
    length less one. *)
Lemma uint_lower (d : Decimal.uint) :
  Decimal.unorm d = d -> d <> Decimal.zero -> d <> Decimal.Nil ->
  (10 ^ (Z.of_nat (Decimal.nb_digits d) - 1) <= zacc d 0)%Z.
Proof.
  intros Hn Hz Hnil; destruct d as [|d|d|d|d|d|d|d|d|d|d]; try contradiction.
  1: { exfalso; rewrite DecimalFacts.unorm_D0 in Hn.
       destruct (Decimal.uint_eq_dec d Decimal.Nil) as [->|Hd]; [now apply Hz|].
       pose proof (DecimalFacts.nb_digits_unorm d Hd) as Hle.
       rewrite Hn in Hle; cbn [Decimal.nb_digits] in Hle; lia. }
  all: cbn [zacc Decimal.nb_digits]; rewrite Nat2Z.inj_succ;
    replace (Z.succ (Z.of_nat (Decimal.nb_digits d)) - 1)%Z
      with (Z.of_nat (Decimal.nb_digits d)) by lia;
    match goal with
    | |- (_ <= zacc ?u ?k)%Z =>
        pose proof (zacc_lower u k ltac:(lia));
        pose proof (Z.pow_nonneg 10 (Z.of_nat (Decimal.nb_digits u))); nia
    end.
Qed.

Lemma to_uint_lower (p : positive) :
  (10 ^ (Z.of_nat (Decimal.nb_digits (Pos.to_uint p)) - 1) <= Zpos p)%Z.
Proof.
  pose proof (DecimalPos.Unsigned.to_of (Pos.to_uint p)) as Hn.
  rewrite DecimalPos.Unsigned.of_to in Hn; cbn [N.to_uint] in Hn.
  pose proof (uint_lower _ (eq_sym Hn) (DecimalPos.Unsigned.to_uint_nonzero p)
                (DecimalPos.Unsigned.to_uint_nonnil p)) as H.
  now rewrite zacc_0, DecimalPos.Unsigned.of_to in H.
Qed.

Lemma to_uint_short (p : positive) :
  (Zpos p < 10 ^ Z.of_nat INT_MAX_STR_DIGITS)%Z ->
  (Decimal.nb_digits (Pos.to_uint p) <= INT_MAX_STR_DIGITS)%nat.
Proof.
  intros H; pose proof (to_uint_lower p) as Hlow.
  destruct (Nat.le_gt_cases (Decimal.nb_digits (Pos.to_uint p)) INT_MAX_STR_DIGITS)
    as [Hle|Hgt]; [exact Hle | exfalso].
  assert (Hpow : (10 ^ Z.of_nat INT_MAX_STR_DIGITS
                  <= 10 ^ (Z.of_nat (Decimal.nb_digits (Pos.to_uint p)) - 1))%Z)
    by (apply Z.pow_le_mono_r; lia).
  lia.
Qed.

(** [int(str(n)) == n] for the integers that [int] converts. *)
Lemma int_str_of_int (z : Z) :
  (Z.abs z < 10 ^ Z.of_nat INT_MAX_STR_DIGITS)%Z -> int (str_of_int z) = Some z.
Proof.
  unfold str_of_int; destruct z as [|p|p]; intros Hz; [reflexivity| |];
    cbn [Z.to_int NilZero.string_of_int NilZero.string_of_uint];
    pose proof (DecimalPos.Unsigned.to_uint_nonnil p) as Hnil;
    destruct (int_uint _ Hnil (to_uint_short p Hz)) as [Hpos Hneg];
    rewrite DecimalPos.Unsigned.of_to in Hpos, Hneg.
  - destruct (Pos.to_uint p); try contradiction; exact Hpos.
  - destruct (Pos.to_uint p); try contradiction; exact Hneg.
Qed.

(** An index-sized integer has few digits. *)
Lemma index_sized_short (z : Z) :
  (- PY_SSIZE_T_MAX - 1 <= z <= PY_SSIZE_T_MAX)%Z ->
  (Z.abs z < 10 ^ Z.of_nat INT_MAX_STR_DIGITS)%Z.
Proof.
  unfold PY_SSIZE_T_MAX; intros H.
  apply Z.lt_le_trans with (10 ^ 19)%Z; [change (10 ^ 19)%Z with 10000000000000000000%Z; lia|].
  apply Z.pow_le_mono_r; [lia|].
  change 19%Z with (Z.of_nat 19); apply Nat2Z.inj_le; unfold INT_MAX_STR_DIGITS; lia.
Qed.

Lemma str_of_int_numeric (z : Z) : Forall numeric (chars (str_of_int z)).
Proof.
  assert (H : forall d, Forall numeric (chars (NilZero.string_of_uint d))).
  { intros d.
    assert (Hne : Forall numeric (chars (NilEmpty.string_of_uint d)))
      by (eapply Forall_impl; [|apply string_of_uint_numeric]; intros c Hc; now right).
    destruct d; try exact Hne.
    cbn; constructor; [right; eexists; reflexivity | constructor]. }
  unfold str_of_int; destruct (Z.to_int z) as [d|d]; cbn [NilZero.string_of_int].
  - apply H.
  - constructor; [now left | apply H].
Qed.

Lemma numeric_clean (s : string) : Forall numeric (chars s) -> clean s.
Proof.
  intros H; rewrite Forall_forall in H; split; intros Hin;
    destruct (H _ Hin) as [E|[k E]]; discriminate E.
Qed.


Lemma str_of_int_clean (z : Z) : clean (str_of_int z).
Proof. apply numeric_clean, str_of_int_numeric. Qed.

Lemma encode_all_clean (columns : list (option string)) :
  Forall clean (map encode columns).
Proof.
  apply Forall_forall; intros t Hin; apply in_map_iff in Hin as [v [<- _]].
  exact (encode_free v).
Qed.





Lemma next_n_app {B : Type} (row rest : list B) :
  next_n (List.length row) (row ++ rest) = Some (row, rest).
Proof. induction row as [|x row IH]; cbn; [reflexivity | now rewrite IH]. Qed.

Lemma zip_loop_concat {B : Type} (n : nat) (rows : list (list B)) (fuel : nat) :
  (0 < n)%nat -> Forall (fun r => List.length r = n) rows ->
  (List.length rows <= fuel)%nat ->
  zip_loop fuel n (List.concat rows) = rows.
Proof.
  intros Hn Hall; revert fuel; induction Hall as [|row rows Hrow Hall IH]; intros fuel Hfuel.
  - destruct fuel; [reflexivity|]; cbn; destruct n; [lia | reflexivity].
  - destruct fuel as [|fuel]; [cbn in Hfuel; lia|].
    cbn [List.concat zip_loop]; rewrite <- Hrow, next_n_app, Hrow, IH;
      [reflexivity | cbn in Hfuel; lia].
Qed.

(** A response line made of status 0, the column count [n] and the encoded
    columns of one or more rows of [n] columns each is parsed into exactly
    these rows; [n] is then at most the number of the tokens of the line,
    and it is a count that a list can hold. *)
Theorem response_round_trip (n : nat) (rows : list (list (option string))) :
  (0 < n)%nat -> rows <> [] -> Forall (fun r => List.length r = n) rows ->
  (Z.of_nat n <= PY_SSIZE_T_MAX / 8)%Z ->
  _parse_response
    (join (str1 TAB) ("0" :: str_of_int (Z.of_nat n) :: map encode (List.concat rows)))
  = Ret rows.
Proof.
  intros Hn _ Hall Hfits; unfold _parse_response.
  assert (Hlow : (- PY_SSIZE_T_MAX - 1 <= Z.of_nat n)%Z) by (unfold PY_SSIZE_T_MAX; lia).
  assert (Hmax : (Z.of_nat n <= PY_SSIZE_T_MAX)%Z).
  { revert Hfits; unfold PY_SSIZE_T_MAX.
    change (9223372036854775807 / 8)%Z with 1152921504606846975%Z; lia. }
  rewrite split_join;
    [| discriminate
     | apply Forall_cons; [vm_compute; intuition discriminate|];
       apply Forall_cons; [exact (proj1 (str_of_int_clean _))|];
       eapply Forall_impl; [|apply encode_all_clean]; intros t [Ht _]; exact Ht].
  change (int "0") with (Some 0%Z); cbn [Z.eqb negb nth_error skipn].
  rewrite (int_str_of_int _ (index_sized_short _ (conj Hlow Hmax))), map_map.
  rewrite (map_ext _ (fun v => v) decode_encode_any), map_id.
  rewrite (repeat_error_none _ Hlow Hfits); unfold zip_star.
  replace (Z.of_nat n <=? 0)%Z with false by (symmetry; apply Z.leb_gt; lia).
  rewrite Nat2Z.id; f_equal; apply zip_loop_concat; try assumption.
  induction Hall as [|row rows Hrow Hall IH]; [cbn; lia|].
  cbn [List.concat List.length]; rewrite length_app; lia.
Qed.



(** [find] rejects an unsupported operator or an empty column list, and
    [insert] an empty column list, with a validation error and without
    touching the state: nothing is read from the environment, no socket
    call is made. *)
Theorem builders_validate (st : State) :
  (forall index_id operation columns limit offset,
      ~ In operation FIND_OPERATIONS \/ columns = [] ->
      exists msg,
        find index_id operation columns limit offset st = (Raise (ValueError msg), st))
  /\ (forall index_id,
         exists msg, insert index_id [] st = (Raise (ValueError msg), st)).
Proof.
  split.
  - intros index_id operation columns limit offset H; unfold find.
    destruct (mem operation FIND_OPERATIONS) eqn:Hop; cbn [negb];
      [|eexists; reflexivity].
    destruct H as [H| ->]; [apply mem_In in Hop; contradiction|].
    eexists; reflexivity.
  - intros index_id; eexists; reflexivity.
Qed.

(** [_parse_response] returns rows only for a line whose first token reads
    as 0 and whose second token reads as an integer; the rows are then the
    decoded remaining tokens grouped by that count. *)
Theorem parse_response_ret_inv (raw_data : string) (rows : list row) :
  _parse_response raw_data = Ret rows ->
  exists status count fields columns,
    split TAB raw_data = status :: count :: fields
    /\ int status = Some 0%Z
    /\ int count = Some columns
    /\ rows = zip_star (map decode fields) columns.
Proof.
  unfold _parse_response.
  destruct (split TAB raw_data) as [|status [|count fields]]; try discriminate.
  - destruct (int status) as [k|]; [|discriminate].
    destruct (k =? 0)%Z; discriminate.
  - destruct (int status) as [k|] eqn:Hs; [|discriminate].
    destruct (k =? 0)%Z eqn:Hk; cbn [negb nth_error]; [|discriminate].
    apply Z.eqb_eq in Hk; subst k.
    destruct (int count) as [columns|] eqn:Hc; [|discriminate].
    destruct (repeat_error columns); [discriminate|].
    intros [= <-]; exists status, count, fields, columns; repeat split; assumption.
Qed.

Lemma parse_response_ret_inv_witness :
  exists status count fields columns,
    split TAB Scenario.odd_frame = status :: count :: fields
    /\ int status = Some 0%Z
    /\ int count = Some columns
    /\ [[Some "a"; Some "b"]] = zip_star (map decode fields) columns.
Proof. apply parse_response_ret_inv; reflexivity. Defined.

Lemma response_round_trip_witness :
  _parse_response
    (join (str1 TAB)
       ("0" :: str_of_int (Z.of_nat 2)
        :: map encode (List.concat [[Some "1"; Some "alice"]; [Some "2"; None]])))
  = Ret [[Some "1"; Some "alice"]; [Some "2"; None]].
Proof.
  apply response_round_trip;
    [lia | discriminate | repeat constructor | vm_compute; discriminate].
Defined.


End WireFacts.
